(** * rss2masto: a shallow embedding of the feed-to-post pipeline

    Source: [getFeed], [Start], [makeHashtags] (first file of
    src/unnamed/part_000) and [setDefaultValues] (src/rssconfig.go).

    Go strings are byte strings; they are modelled by [string] (one [ascii]
    per byte).  Go [int64] arithmetic is modelled on [Z] with its
    wrap-around written out ([wrap64]).  A Go panic is modelled by [None]. *)

From Stdlib Require Import ZArith String Ascii List Bool Lia.
From Stdlib Require Import Sorted Permutation.
Import ListNotations.
Open Scope string_scope.
Open Scope Z_scope.

(** ** int64 arithmetic *)

Definition wrap64 (z : Z) : Z := (z + 2 ^ 63) mod 2 ^ 64 - 2 ^ 63.

(** ** Byte-string helpers (Go's [strings] package, ASCII) *)

Definition chr (n : nat) : ascii := ascii_of_nat n.
Definition nl : string := String (chr 10) EmptyString.
Definition nlnl : string := nl ++ nl.
Definition sp : ascii := " "%char.

(** [len(s)] *)
Definition len (s : string) : Z := Z.of_nat (String.length s).

(** [s[:n]] : panics unless [0 <= n <= len(s)]. *)
Definition slice_to (s : string) (n : Z) : option string :=
  if (n <? 0) || (len s <? n) then None
  else Some (substring 0 (Z.to_nat n) s).

(** [s[i]] : panics unless [0 <= i < len(s)]. *)
Definition byte_at (s : string) (i : Z) : option ascii :=
  if i <? 0 then None else String.get (Z.to_nat i) s.

Fixpoint has_prefix (p s : string) : bool :=
  match p, s with
  | EmptyString, _ => true
  | String a p', String b s' => Ascii.eqb a b && has_prefix p' s'
  | String _ _, EmptyString => false
  end.

(** [strings.Contains(s, sub)] *)
Fixpoint contains (s sub : string) : bool :=
  has_prefix sub s ||
  match s with
  | EmptyString => false
  | String _ s' => contains s' sub
  end.

Fixpoint mem_char (c : ascii) (chars : string) : bool :=
  match chars with
  | EmptyString => false
  | String a r => Ascii.eqb a c || mem_char c r
  end.

(** [strings.ContainsAny(s, chars)] *)
Fixpoint contains_any (s chars : string) : bool :=
  match s with
  | EmptyString => false
  | String a r => mem_char a chars || contains_any r chars
  end.

(** [strings.LastIndexAny(s, chars)]: index of the last byte of [s] in
    [chars], or -1. *)
Fixpoint last_index_any_from (i : Z) (s chars : string) : Z :=
  match s with
  | EmptyString => -1
  | String a r =>
      let j := last_index_any_from (i + 1) r chars in
      if j =? -1 then (if mem_char a chars then i else -1) else j
  end.
Definition last_index_any (s chars : string) : Z := last_index_any_from 0 s chars.

Definition is_space (c : ascii) : bool :=
  let n := nat_of_ascii c in
  (Nat.eqb n 32) || (Nat.leb 9 n && Nat.leb n 13).

Fixpoint trim_left (s : string) : string :=
  match s with
  | EmptyString => EmptyString
  | String a r => if is_space a then trim_left r else s
  end.

Definition trim_right (s : string) : string :=
  string_of_list_ascii (rev (list_ascii_of_string
    (trim_left (string_of_list_ascii (rev (list_ascii_of_string s)))))).

(** [strings.TrimSpace] (ASCII white space). *)
Definition trim_space (s : string) : string := trim_right (trim_left s).

(** [strings.ReplaceAll(s, " ", "")] *)
Fixpoint remove_spaces (s : string) : string :=
  match s with
  | EmptyString => EmptyString
  | String a r => if Ascii.eqb a sp then remove_spaces r else String a (remove_spaces r)
  end.

(** [strings.Split(s, ":")]; note [Split("", ":") = [""]]. *)
Fixpoint split_on (c : ascii) (s : string) : list string :=
  match s with
  | EmptyString => [EmptyString]
  | String a r =>
      let parts := split_on c r in
      if Ascii.eqb a c then EmptyString :: parts
      else match parts with
           | p :: ps => String a p :: ps
           | [] => [String a EmptyString]
           end
  end.

(** [strings.Join(a, sep)] *)
Fixpoint join (sep : string) (a : list string) : string :=
  match a with
  | [] => EmptyString
  | [x] => x
  | x :: r => x ++ sep ++ join sep r
  end.

(** [s == ""] *)
Definition is_empty (s : string) : bool := String.eqb s EmptyString.

(** ** Title casing

    [casesTitle] is [cases.Title(lang, cases.NoLower)] from golang.org/x/text:
    the first letter of every word is upper-cased and the other letters are
    left as they are.  Modelled on ASCII: a word starts at the beginning of
    the string and after any byte that is neither a letter, a digit nor an
    apostrophe. *)

Definition in_range (lo hi : nat) (c : ascii) : bool :=
  let n := nat_of_ascii c in Nat.leb lo n && Nat.leb n hi.

Definition is_word_byte (c : ascii) : bool :=
  in_range 48 57 c || in_range 65 90 c || in_range 97 122 c || Ascii.eqb c "'"%char.

Definition to_upper (c : ascii) : ascii :=
  if in_range 97 122 c then chr (nat_of_ascii c - 32) else c.

Fixpoint title_from (start : bool) (s : string) : string :=
  match s with
  | EmptyString => EmptyString
  | String a r => String (if start then to_upper a else a) (title_from (negb (is_word_byte a)) r)
  end.

Definition casesTitle (s : string) : string := title_from true s.

(** [strings.NewReplacer(" - ", " ", " i ", ": ")].Replace: left to right,
    non-overlapping. *)
Fixpoint replacer (s : string) : string :=
  match s with
  | EmptyString => EmptyString
  | String a t =>
      match t with
      | String b (String c r) =>
          if Ascii.eqb a sp && Ascii.eqb b "-"%char && Ascii.eqb c sp
          then String sp (replacer r)
          else if Ascii.eqb a sp && Ascii.eqb b "i"%char && Ascii.eqb c sp
          then String ":"%char (String sp (replacer r))
          else String a (replacer t)
      | _ => String a (replacer t)
      end
  end.

(** ** Data model *)

(** [gofeed.Item], as far as [getFeed] reads it; [Categories] is [None]
    for a nil slice.  Timestamps are Unix seconds. *)
Record Item := mkItem {
  GUID : string;
  PublishedParsed : Z;
  UpdatedParsed : Z;
  Title : string;
  Description : string;
  Content : string;
  Link : string;
  Categories : option (list string)
}.

(** [gofeed.Feed] *)
Record ParsedFeed := mkParsedFeed {
  FeedType : string;
  Language : string;
  Items : list Item
}.

(** [Feed] (rssconfig.go); [Id] and [Followers] are not used by the
    pipeline and are left out; [SendTime] is Unix seconds. *)
Record Feed := mkFeed {
  Name : string;
  FeedUrl : string;
  Token : string;
  Prefix : string;
  Visibility : string;
  HashLink : string;
  ReplaceFrom : string;
  ReplaceTo : string;
  Interval : Z;
  LastRun : Z;
  Count : Z;
  Progress : Z;
  SendTime : Z
}.

Definition set_LastRun (f : Feed) (v : Z) : Feed :=
  mkFeed (Name f) (FeedUrl f) (Token f) (Prefix f) (Visibility f) (HashLink f)
    (ReplaceFrom f) (ReplaceTo f) (Interval f) v (Count f) (Progress f) (SendTime f).

Definition set_Progress (f : Feed) (v : Z) : Feed :=
  mkFeed (Name f) (FeedUrl f) (Token f) (Prefix f) (Visibility f) (HashLink f)
    (ReplaceFrom f) (ReplaceTo f) (Interval f) (LastRun f) (Count f) v (SendTime f).

(** The success commit: [f.Count++], [f.SendTime = now],
    [if f.LastRun < pub { f.LastRun = pub }]. *)
Definition commit_feed (f : Feed) (sendTime pub : Z) : Feed :=
  mkFeed (Name f) (FeedUrl f) (Token f) (Prefix f) (Visibility f) (HashLink f)
    (ReplaceFrom f) (ReplaceTo f) (Interval f)
    (if LastRun f <? pub then pub else LastRun f)
    (wrap64 (Count f + 1)) (Progress f) sendTime.

(** External collaborators: the xxhash digest, the HTML sanitizer, HTML
    unescaping, regexp compilation (with [ReplaceAllString] and
    [FindAllStringSubmatch(_, 1)]) and [url.Parse(..).Hostname()]. *)
Record Ext := mkExt {
  hashString : string -> string;
  sanitize : string -> string;
  unescape : string -> string;
  compileReplace : string -> option (string -> string -> string);
  compileTag : string -> option (string -> list (list string));
  urlHostname : string -> option string
}.

(** ** makeHashtags *)

Definition category_tags (tag : string) : list string :=
  let tag := trim_space tag in
  let tag := replacer tag in
  let tag := casesTitle tag in
  let tag := remove_spaces tag in
  filter (fun s => negb (contains_any s "-\/.")) (split_on ":"%char tag).

Definition link_tags (re : option (string -> list (list string))) (link : string) : list string :=
  match re with
  | None => []
  | Some find =>
      match find link with
      | [_; tag] :: _ => if contains tag "-" then [] else [tag]
      | _ => []
      end
  end.

Definition prefixed_tags (prefix : string) (aTags : list string) : list string :=
  if is_empty prefix then []
  else map (fun t => prefix ++ casesTitle t)
         (filter (fun t => negb (contains t prefix)) aTags).

Definition makeHashtags (it : Item) (f : Feed) (re : option (string -> list (list string))) : string :=
  let aTags := match Categories it with
               | Some cats => flat_map category_tags cats
               | None => link_tags re (Link it)
               end in
  match aTags with
  | [] => EmptyString
  | _ => "#" ++ join " #" (app aTags (prefixed_tags (Prefix f) aTags))
  end.

(** ** Rendering: truncation and composition (getFeed, lines 139-175) *)

Definition ellipsis : string := " [...]".

(** The body of the [if l+len(description) > fm.Instance.Limit] branch. *)
Definition truncate_description (limit l : Z) (description : string) : option string :=
  let n := limit - l - 11 in
  match slice_to description n with
  | None => None
  | Some d =>
      let n := last_index_any d " .,;!?" in
      let od :=
        if 0 <? n then
          match slice_to d (n + 1) with
          | None => None
          | Some d1 =>
              match byte_at d1 n with
              | None => None
              | Some c => if Ascii.eqb c sp then slice_to d1 n else Some d1
              end
          end
        else Some d in
      match od with
      | None => None
      | Some d =>
          let l := len d in
          match byte_at d (l - 2) with
          | None => None
          | Some c =>
              let od := if Ascii.eqb c sp then slice_to d (l - 2) else Some d in
              match od with
              | None => None
              | Some d => Some (d ++ ellipsis)
              end
          end
      end
  end.

(** Lines 139-175: [reReplace] is the compiled replacement already applied
    to [f.ReplaceTo]. *)
Definition render (limit : Z) (reReplace : option (string -> string))
    (title hashtags link description : string) : option string :=
  let l := len title + len hashtags + len link in
  let od := if limit <? l + len description
            then truncate_description limit l description
            else Some description in
  match od with
  | None => None
  | Some d =>
      let d := match reReplace with
               | Some r => trim_space (r d)
               | None => d
               end in
      Some (title ++ nlnl
            ++ (if is_empty d then EmptyString else d ++ nlnl)
            ++ (if is_empty hashtags then EmptyString else hashtags ++ nlnl)
            ++ link)
  end.

(** ** Dedup decision for one item (getFeed, lines 103-128) *)

Inductive Decision :=
| Skip
| Panic
| Proceed (pub : Z) (key : string).

(** [earlierDuration] is -12h. *)
Definition earlierSeconds : Z := 12 * 3600.

Definition item_time (isAtom : bool) (it : Item) : Z :=
  if isAtom then UpdatedParsed it else PublishedParsed it.

(** [f.Name[:2] + ":" + hashString(item.GUID)] *)
Definition idempotency_key (X : Ext) (f : Feed) (it : Item) : option string :=
  match slice_to (Name f) 2 with
  | None => None
  | Some p => Some (p ++ ":" ++ hashString X (GUID it))
  end.

(** [cache] is [Cache()]: [None] for a nil client, otherwise the keys it
    holds. *)
Definition item_decision (X : Ext) (now : Z) (isAtom : bool) (f : Feed)
    (cache : option (list string)) (it : Item) : Decision :=
  let limitUnixTime := now - earlierSeconds in
  let pub := item_time isAtom it in
  if pub <? limitUnixTime then Skip else
  let pub := if now <? pub then now else pub in
  if pub <? LastRun f then Skip else
  match idempotency_key X f it with
  | None => Panic
  | Some key =>
      match cache with
      | Some keys => if existsb (String.eqb key) keys then Skip else Proceed pub key
      | None => if pub <=? LastRun f then Skip else Proceed pub key
      end
  end.

(** ** Monitor state and one processing cycle *)

(** State shared by the per-feed tasks: the cache ([Cache()], [None] when
    nil), [fm.lastMonit], [fm.lastCheck], and the number of requests sent so
    far (it indexes the publishing endpoint's answers). *)
Record Shared := mkShared {
  cache : option (list string);
  lastMonit : Z;
  lastCheck : Z;
  calls : nat
}.

(** Result of [createRequest] + [http.DefaultClient.Do]. *)
Inductive PostResult :=
| ReqError
| TransportError
| Status (code : Z).

Definition StatusOK : Z := 200.
Definition StatusCreated : Z := 201.

(** The outside world of one cycle: the clock, [fm.Instance], [debugMode],
    the feed parser and the publishing endpoint. *)
Record Env := mkEnv {
  now : Z;
  sendTime : Z;
  instLimit : Z;
  instLang : string;
  debugMode : bool;
  fetch : string -> option ParsedFeed;
  post : nat -> string -> list (string * string) -> PostResult
}.

(** Lines 177-192: the form fields of the request. *)
Definition pick_lang (feedLang instLang : string) : string :=
  if len feedLang =? 2 then feedLang
  else if 2 <? len feedLang then substring 0 2 feedLang
  else instLang.

Definition form_data (msg visibility lang : string) : list (string * string) :=
  [("status", msg); ("visibility", visibility)]
  ++ (if len lang =? 2 then [("language", lang)] else []).

(** Lines 194-225: one request and, on [http.StatusOK], the commit.  The
    [Cache().Set(idempotencyKey, "1", storageDuration)] is modelled as
    adding the key to the cache: the 7-day expiry and the ignored error of
    [Set] are not modelled, so the cache here only ever grows. *)
Definition publish_step (env : Env) (key : string) (pub : Z)
    (data : list (string * string)) (st : Feed * Shared) : Feed * Shared :=
  let (f, sh) := st in
  let sh1 := mkShared (cache sh) (lastMonit sh) (lastCheck sh) (S (calls sh)) in
  match post env (calls sh) key data with
  | Status code =>
      if code =? StatusOK then
        let f' := commit_feed f (sendTime env) pub in
        let c' := match cache sh with
                  | Some keys => Some (key :: keys)
                  | None => None
                  end in
        let lm := if lastMonit sh <? LastRun f' then LastRun f' else lastMonit sh in
        (f', mkShared c' lm (lastCheck sh) (S (calls sh)))
      else (f, sh1)
  | ReqError | TransportError => (f, sh1)
  end.

(** Lines 104-226: one iteration of the item loop. *)
Definition process_item (X : Ext) (env : Env) (isAtom : bool) (feedLang : string)
    (reReplace : option (string -> string)) (reTag : option (string -> list (list string)))
    (st : Feed * Shared) (it : Item) : option (Feed * Shared) :=
  let (f, sh) := st in
  match item_decision X (now env) isAtom f (cache sh) it with
  | Skip => Some st
  | Panic => None
  | Proceed pub key =>
      let d0 := if is_empty (Content it) then Description it else Content it in
      let description := unescape X (trim_space (sanitize X d0)) in
      let title := unescape X (Title it) in
      let hashtags := makeHashtags it f reTag in
      match render (instLimit env) reReplace title hashtags (Link it) description with
      | None => None
      | Some msg =>
          let data := form_data msg (Visibility f) (pick_lang feedLang (instLang env)) in
          if debugMode env then Some st
          else Some (publish_step env key pub data st)
      end
  end.

(** [sort.Slice] with [less(i, j) = t(i) > t(j)]: descending by [t].
    [sort.Slice] is not stable; this insertion sort is one correct
    outcome, and the only one when the timestamps are pairwise distinct. *)
Fixpoint insert_desc (t : Item -> Z) (x : Item) (l : list Item) : list Item :=
  match l with
  | [] => [x]
  | y :: r => if t y <? t x then x :: y :: r else y :: insert_desc t x r
  end.

Fixpoint sort_desc (t : Item -> Z) (l : list Item) : list Item :=
  match l with
  | [] => []
  | x :: r => insert_desc t x (sort_desc t r)
  end.

(** The order of the item loop [for i := len(feed.Items) - 1; i >= 0; i--]
    over the sorted slice. *)
Definition loop_order (isAtom : bool) (items : list Item) : list Item :=
  rev (sort_desc (item_time isAtom) items).

Fixpoint run_items (X : Ext) (env : Env) (isAtom : bool) (feedLang : string)
    (reReplace : option (string -> string)) (reTag : option (string -> list (list string)))
    (st : Feed * Shared) (items : list Item) : option (Feed * Shared) :=
  match items with
  | [] => Some st
  | it :: r =>
      match process_item X env isAtom feedLang reReplace reTag st it with
      | None => None
      | Some st' => run_items X env isAtom feedLang reReplace reTag st' r
      end
  end.

(** [getFeed]; a parse error returns with nothing changed. *)
Definition getFeed (X : Ext) (env : Env) (f : Feed) (sh : Shared) : option (Feed * Shared) :=
  match fetch env (FeedUrl f) with
  | None => Some (f, sh)
  | Some pf =>
      let isAtom := String.eqb (FeedType pf) "atom" in
      let reReplace :=
        if is_empty (ReplaceFrom f) then None
        else match compileReplace X (ReplaceFrom f) with
             | Some r => Some (fun d => r d (ReplaceTo f))
             | None => None
             end in
      let reTag := if is_empty (HashLink f) then None else compileTag X (HashLink f) in
      run_items X env isAtom (Language pf) reReplace reTag (f, sh) (loop_order isAtom (Items pf))
  end.

(** The task [Start] runs for one feed. *)
Definition tick_feed (X : Ext) (env : Env) (sh : Shared) (f : Feed) : option (Feed * Shared) :=
  if negb (is_empty (FeedUrl f)) && negb (is_empty (Token f)) then
    let f := set_Progress f (wrap64 (Progress f + 1)) in
    if Interval f <=? Progress f then
      let f := set_Progress f 0 in
      getFeed X env f (mkShared (cache sh) (lastMonit sh) (now env) (calls sh))
    else Some (f, sh)
  else Some (f, sh).

(** [Start]: the per-feed tasks run in goroutines; each one writes only its
    own feed, and the shared part is threaded through the tasks in list
    order, one task after the other.  This is one schedule of the
    goroutines: the check-then-store on [fm.lastMonit] is not atomic in
    Go, so interleaved tasks can lose an update that no sequential order
    loses.  Saving the configuration is I/O and left out. *)
Fixpoint Start (X : Ext) (env : Env) (sh : Shared) (fs : list Feed)
    : option (list Feed * Shared) :=
  match fs with
  | [] => Some ([], sh)
  | f :: r =>
      match tick_feed X env sh f with
      | None => None
      | Some (f', sh') =>
          match Start X env sh' r with
          | None => None
          | Some (r', sh'') => Some (f' :: r', sh'')
          end
      end
  end.

(** ** Initialization (rssconfig.go) *)

Definition DefaultCheckInterval : Z := 10.

Definition is_visibility (v : string) : bool :=
  String.eqb v "public" || String.eqb v "unlisted" || String.eqb v "private".

(** [strings.NewReplacer("\n", "\\n", "\r", "\\r")] *)
Fixpoint feedNameReplacer (s : string) : string :=
  match s with
  | EmptyString => EmptyString
  | String a r =>
      if Nat.eqb (nat_of_ascii a) 10 then "\n" ++ feedNameReplacer r
      else if Nat.eqb (nat_of_ascii a) 13 then "\r" ++ feedNameReplacer r
      else String a (feedNameReplacer r)
  end.

(** The loop body of [setDefaultValues]; [lastMonit] is [fm.LastMonit()]. *)
Definition setDefault_feed (X : Ext) (lastMonit : Z) (f : Feed) : Feed :=
  let lr := if LastRun f =? 0 then lastMonit else LastRun f in
  let iv := if Interval f =? 0 then DefaultCheckInterval else Interval f in
  let lr := wrap64 (lr + wrap64 (60 * iv)) in
  let vis := if is_visibility (Visibility f) then Visibility f else "private" in
  let name :=
    if is_empty (Name f) then
      match urlHostname X (FeedUrl f) with
      | Some h => h
      | None => Name f
      end
    else Name f in
  mkFeed (feedNameReplacer name) (FeedUrl f) (Token f) (Prefix f) vis (HashLink f)
    (ReplaceFrom f) (ReplaceTo f) iv lr (Count f) (Progress f) (SendTime f).

Definition setDefaultValues (X : Ext) (lastMonit : Z) (fs : list Feed) : list Feed :=
  map (setDefault_feed X lastMonit) fs.

(** [NewFeedsMonitor], lines 88-94: [fm.lastMonit] from the persisted
    [Monit], or [now] truncated to the minute minus 55 minutes when [Monit]
    is unset or more than an hour old. *)
Definition init_lastMonit (now monit : Z) : Z :=
  if (monit =? 0) || (3600 <? now - monit) then (now - now mod 60) - 55 * 60 else monit.

(** What [NewFeedsMonitor] does to the feeds once the configuration is
    loaded: the new [lastMonit] and the defaulted feeds. *)
Definition NewFeedsMonitor (X : Ext) (now monit : Z) (fs : list Feed) : Z * list Feed :=
  let lm := init_lastMonit now monit in
  (lm, setDefaultValues X lm fs).

(** Several cycles of [Start], one per tick, each with its own
    environment. *)
Fixpoint Cycles (X : Ext) (envs : list Env) (sh : Shared) (fs : list Feed)
    : option (list Feed * Shared) :=
  match envs with
  | [] => Some (fs, sh)
  | env :: r =>
      match Start X env sh fs with
      | None => None
      | Some (fs', sh') => Cycles X r sh' fs'
      end
  end.

(** [strings.HasSuffix(s, suf)] *)
Definition ends_with (suf s : string) : bool :=
  let n := String.length s in
  let m := String.length suf in
  Nat.leb m n && String.eqb (substring (n - m) m s) suf.

(** ** Concrete collaborators and inputs used by the examples *)

(** Identity hashing, sanitizing and unescaping; no regexps; no host. *)
Definition ext0 : Ext :=
  mkExt (fun s => s) (fun s => s) (fun s => s) (fun _ => None) (fun _ => None) (fun _ => None).

Definition feed0 (name : string) (interval lastRun : Z) : Feed :=
  mkFeed name "https://example.com/feed.xml" "token" EmptyString "public"
    EmptyString EmptyString EmptyString interval lastRun 0 0 0.

Definition item0 (guid : string) (t : Z) : Item :=
  mkItem guid t t "Title" "Body." EmptyString "https://example.com/" None.

Definition shared0 (c : option (list string)) : Shared := mkShared c 0 0 0.

Definition env0 (t : Z) (fetched : option ParsedFeed) (code : Z) : Env :=
  mkEnv t t 500 "en" false (fun _ => fetched) (fun _ _ _ => Status code).

(** A 20-byte link and a 100-byte body with a word boundary. *)
Definition link20 : string := "https://example.com/".
Definition body100 : string :=
  "aaaaa bbbbbbbbbbbbbbbbbbbbbbbbbbbbbbbbbbbbbbbbbbbbbbbbbbbbbbbbbbbbbbbbbbbbbbbbbbbbbbbbbbbbbbbbbbbbbb".
Definition body100b : string :=
  "aaaa bbbbb bbbbbbbbbbbbbbbbbbbbbbbbbbbbbbbbbbbbbbbbbbbbbbbbbbbbbbbbbbbbbbbbbbbbbbbbbbbbbbbbbbbbbbbbb".
Definition title30 : string := "A title of exactly thirty byte".
Definition body10 : string := "Ten bytes.".
Definition x40 : string := "xxxxxxxxxxxxxxxxxxxxxxxxxxxxxxxxxxxxxxxx".
Definition x35 : string := "xxxxxxxxxxxxxxxxxxxxxxxxxxxxxxxxxxx".

(** ** Further functions of rssconfig.go *)

(** [FeedIndex]: the index of the first feed whose name starts with
    [name], or -1. *)
Fixpoint FeedIndex_from (i : Z) (fs : list Feed) (name : string) : Z :=
  match fs with
  | [] => -1
  | f :: r => if has_prefix name (Name f) then i else FeedIndex_from (i + 1) r name
  end.

Definition FeedIndex (fs : list Feed) (name : string) : Z := FeedIndex_from 0 fs name.

Definition DefaultCharacterLimit : Z := 500.

(** What [getInstanceLimit] gets back from [GET /api/v1/instance]: no
    answer (the request cannot be built, the transport fails or the body
    cannot be read), or a status and the value of
    [configuration.statuses.max_characters] read by [jsoniter ... ToInt()]
    (0 when missing or not a number). *)
Inductive InstanceReply :=
| NoReply
| Reply (status : Z) (maxCharacters : Z).

(** [getInstanceLimit]; [urlValid] is the outcome of [fm.validateURL]. *)
Definition getInstanceLimit (instURL : string) (urlValid : bool) (reply : InstanceReply) : Z :=
  if is_empty instURL then DefaultCharacterLimit
  else if negb urlValid then DefaultCharacterLimit
  else match reply with
       | NoReply => DefaultCharacterLimit
       | Reply status i =>
           if status =? StatusOK then (if 0 <? i then i else DefaultCharacterLimit)
           else DefaultCharacterLimit
       end.

(** [NewFeedsMonitor], lines 114-117: the configured limit, or the
    instance's when it is 0. *)
Definition instance_limit (limit : Z) (instURL : string) (urlValid : bool)
    (reply : InstanceReply) : Z :=
  if limit =? 0 then getInstanceLimit instURL urlValid reply else limit.

(** [NewFeedsMonitor], line 129: [60/(len(fm.Instance.Feeds)+1)] seconds. *)
Definition ctxTimeoutSeconds (nFeeds : Z) : Z := Z.quot 60 (nFeeds + 1).

(** ** Invariants of the processing cycle *)

(** The bytes [\n] and [\r]. *)
Definition crlf : string := String (chr 10) (String (chr 13) EmptyString).

Definition prefix_of (p s : string) : Prop := exists rest, s = p ++ rest.

(** The fields the cycle never writes. *)
Definition same_setup (f f' : Feed) : Prop :=
  Name f' = Name f /\ FeedUrl f' = FeedUrl f /\ Token f' = Token f /\ Interval f' = Interval f.

(** Keys are only ever added to the cache. *)
Definition cache_grows (sh sh' : Shared) : Prop :=
  forall keys, cache sh = Some keys -> exists keys', cache sh' = Some keys' /\ incl keys keys'.

(** [fm.lastMonit] never goes down and bounds every advanced watermark. *)
Definition high_water (f f' : Feed) (sh sh' : Shared) : Prop :=
  lastMonit sh <= lastMonit sh' /\ LastRun f' <= Z.max (LastRun f) (lastMonit sh').

(** A watermark is left alone, or moved to a time between the 12-hour
    horizon and the clock [now]. *)
Definition in_window (now : Z) (f f' : Feed) : Prop :=
  LastRun f' = LastRun f \/
  (LastRun f <= LastRun f' <= now /\ now - earlierSeconds <= LastRun f').

Definition run_inv (now : Z) (f f' : Feed) (sh sh' : Shared) : Prop :=
  same_setup f f' /\ Progress f' = Progress f /\ cache_grows sh sh' /\
  high_water f f' sh sh' /\ in_window now f f'.

(** An enabled feed whose [Progress] is in [[0, Interval)], as
    [setDefaultValues] leaves it for a positive interval. *)
Definition progress_in_range (f : Feed) : Prop :=
  is_empty (FeedUrl f) = false /\ is_empty (Token f) = false /\
  0 < Interval f < 2 ^ 63 /\ 0 <= Progress f < Interval f.

(** * Lemmas about the helpers *)

Lemma length_append_nat (a b : string) :
  String.length (a ++ b) = (String.length a + String.length b)%nat.
Proof. induction a as [|c a IH]; simpl; congruence. Qed.

Lemma len_append (a b : string) : len (a ++ b) = len a + len b.
Proof. unfold len. rewrite length_append_nat. lia. Qed.

Lemma len_nonneg (s : string) : 0 <= len s.
Proof. unfold len. lia. Qed.

Lemma len_cons (a : ascii) (s : string) : len (String a s) = len s + 1.
Proof. unfold len. cbn [String.length]. lia. Qed.

Lemma length_prefix (m : nat) (s : string) :
  (m <= String.length s)%nat -> String.length (substring 0 m s) = m.
Proof.
  revert m. induction s as [|c s IH]; intros m Hm; simpl in *.
  - destruct m; [reflexivity | lia].
  - destruct m; [reflexivity|]. simpl. rewrite IH; lia.
Qed.

Lemma slice_to_len (s d : string) (n : Z) :
  slice_to s n = Some d -> len d = n /\ 0 <= n <= len s.
Proof.
  unfold slice_to. destruct (n <? 0) eqn:E1; simpl; [discriminate|].
  destruct (len s <? n) eqn:E2; [discriminate|]. intros H; injection H as <-.
  apply Z.ltb_ge in E1. apply Z.ltb_ge in E2. split; [|lia].
  unfold len in *. rewrite length_prefix; lia.
Qed.

Lemma get_some_lt (k : nat) (s : string) (c : ascii) :
  String.get k s = Some c -> (k < String.length s)%nat.
Proof.
  revert s. induction k as [|k IH]; intros s H; destruct s; simpl in *;
    try discriminate; [lia|]. specialize (IH _ H). lia.
Qed.

Lemma byte_at_bounds (s : string) (i : Z) (c : ascii) :
  byte_at s i = Some c -> 0 <= i < len s.
Proof.
  unfold byte_at, len. destruct (i <? 0) eqn:E; [discriminate|].
  apply Z.ltb_ge in E. intros H. apply get_some_lt in H. lia.
Qed.

Lemma last_index_any_from_range (i : Z) (s chars : string) :
  let r := last_index_any_from i s chars in
  r = -1 \/ (i <= r < i + len s).
Proof.
  revert i. induction s as [|a s IH]; intros i; simpl; [left; reflexivity|].
  specialize (IH (i + 1)). simpl in IH.
  destruct (last_index_any_from (i + 1) s chars =? -1) eqn:E.
  - destruct (mem_char a chars); [right | left; reflexivity].
    split; [lia|]. pose proof (len_nonneg s). rewrite len_cons. lia.
  - apply Z.eqb_neq in E. right. destruct IH as [IH|IH]; [contradiction|].
    rewrite len_cons. lia.
Qed.

Lemma last_index_any_lt (s chars : string) : last_index_any s chars < len s \/ last_index_any s chars = -1.
Proof.
  unfold last_index_any. destruct (last_index_any_from_range 0 s chars) as [H|H];
    [right | left]; lia.
Qed.

(** Case analysis on the bounds-checked operations of the truncation. *)
Ltac slice_cases :=
  repeat (cbv beta iota zeta;
    match goal with
    | |- context [slice_to ?s ?n] =>
        let E := fresh "E" in
        destruct (slice_to s n) eqn:E; [apply slice_to_len in E |]
    | |- context [byte_at ?s ?i] =>
        let E := fresh "E" in
        destruct (byte_at s i) eqn:E; [apply byte_at_bounds in E |]
    | |- context [if ?b then _ else _] => destruct b
    end).

Lemma truncate_some (limit l : Z) (description r : string) :
  truncate_description limit l description = Some r ->
  exists d, r = d ++ ellipsis /\ len d <= limit - l - 11.
Proof.
  unfold truncate_description. slice_cases; intros H; try discriminate;
    injection H as <-; eexists; split; try reflexivity; lia.
Qed.

Lemma truncate_short_panics (limit l : Z) (description : string) :
  limit - l - 11 < 2 -> truncate_description limit l description = None.
Proof.
  intros Hn. unfold truncate_description.
  destruct (slice_to description (limit - l - 11)) as [d|] eqn:E; [|reflexivity].
  apply slice_to_len in E as [Hd _].
  destruct (last_index_any_lt d " .,;!?") as [Hi|Hi];
  destruct (0 <? last_index_any d " .,;!?") eqn:Hp;
    try (apply Z.ltb_lt in Hp; lia); cbv beta iota zeta.
  all: destruct (byte_at d (len d - 2)) eqn:B; [apply byte_at_bounds in B; lia | reflexivity].
Qed.

Lemma append_assoc_s (a b c : string) : (a ++ b) ++ c = a ++ b ++ c.
Proof. induction a as [|x a IH]; simpl; congruence. Qed.

Lemma append_cancel_r (a b c : string) : a ++ c = b ++ c -> a = b.
Proof.
  revert b. induction a as [|x a IH]; intros [|y b] H; cbn [append] in H.
  - reflexivity.
  - apply (f_equal String.length) in H. cbn [String.length] in H.
    rewrite length_append_nat in H. lia.
  - apply (f_equal String.length) in H. cbn [String.length] in H.
    rewrite length_append_nat in H. lia.
  - injection H as -> H. f_equal. exact (IH b H).
Qed.

Lemma effective_time (now t : Z) : (if now <? t then now else t) = Z.min now t.
Proof. destruct (Z.ltb_spec now t); lia. Qed.

Lemma wrap64_id (x : Z) : -2 ^ 63 <= x < 2 ^ 63 -> wrap64 x = x.
Proof.
  intros H. unfold wrap64. rewrite Z.mod_small; lia.
Qed.

(** An item below the watermark is skipped before its key is built. *)
Lemma item_below_watermark_skipped (X : Ext) (now : Z) (isAtom : bool) (f : Feed)
    (c : option (list string)) (it : Item) :
  Z.min now (item_time isAtom it) < LastRun f -> item_decision X now isAtom f c it = Skip.
Proof.
  intros Hlt. unfold item_decision. rewrite effective_time.
  destruct (item_time isAtom it <? now - earlierSeconds); [reflexivity|].
  destruct (Z.ltb_spec (Z.min now (item_time isAtom it)) (LastRun f)); [reflexivity | lia].
Qed.

Lemma item_decision_proceed (X : Ext) (now : Z) (isAtom : bool) (f : Feed)
    (c : option (list string)) (it : Item) (pub : Z) (key : string) :
  item_decision X now isAtom f c it = Proceed pub key ->
  pub = Z.min now (item_time isAtom it) /\ LastRun f <= pub /\
  idempotency_key X f it = Some key.
Proof.
  unfold item_decision. rewrite effective_time.
  destruct (item_time isAtom it <? now - earlierSeconds); [discriminate|].
  destruct (Z.ltb_spec (Z.min now (item_time isAtom it)) (LastRun f)); [discriminate|].
  destruct (idempotency_key X f it) as [k|]; [|discriminate].
  destruct c as [keys|].
  - destruct (existsb (String.eqb k) keys); [discriminate|]. intros E; injection E as <- <-. auto.
  - destruct (Z.leb_spec (Z.min now (item_time isAtom it)) (LastRun f)); [discriminate|].
    intros E; injection E as <- <-. split; [reflexivity | split; [lia | reflexivity]].
Qed.

Lemma item_decision_short_name (X : Ext) (now : Z) (isAtom : bool) (f : Feed)
    (c : option (list string)) (it : Item) :
  len (Name f) < 2 ->
  now - earlierSeconds <= item_time isAtom it ->
  LastRun f <= Z.min now (item_time isAtom it) ->
  item_decision X now isAtom f c it = Panic.
Proof.
  intros Hn Hh Hw. unfold item_decision. rewrite effective_time.
  destruct (Z.ltb_spec (item_time isAtom it) (now - earlierSeconds)); [lia|].
  destruct (Z.ltb_spec (Z.min now (item_time isAtom it)) (LastRun f)); [lia|].
  unfold idempotency_key, slice_to.
  destruct (Z.ltb_spec 2 0); [lia|]. destruct (Z.ltb_spec (len (Name f)) 2); [reflexivity|lia].
Qed.

Lemma idempotency_key_short (X : Ext) (f : Feed) (it : Item) :
  len (Name f) < 2 -> idempotency_key X f it = None.
Proof.
  intros Hn. unfold idempotency_key, slice_to.
  destruct (Z.ltb_spec 2 0); [lia|]. destruct (Z.ltb_spec (len (Name f)) 2); [reflexivity|lia].
Qed.

(** The three effects of a request: committed on [StatusOK] only. *)
Lemma publish_step_cases (env : Env) (key : string) (pub : Z)
    (data : list (string * string)) (f f' : Feed) (sh sh' : Shared) :
  publish_step env key pub data (f, sh) = (f', sh') ->
  (post env (calls sh) key data = Status StatusOK /\
   f' = commit_feed f (sendTime env) pub /\
   cache sh' = option_map (cons key) (cache sh)) \/
  (post env (calls sh) key data <> Status StatusOK /\ f' = f /\ cache sh' = cache sh).
Proof.
  unfold publish_step.
  destruct (post env (calls sh) key data) as [| |code] eqn:P.
  - intros H; injection H as <- <-. right. repeat split. discriminate.
  - intros H; injection H as <- <-. right. repeat split. discriminate.
  - destruct (Z.eqb_spec code StatusOK) as [->|Hne].
    + intros H; injection H as <- <-. left. repeat split.
    + intros H; injection H as <- <-. right. repeat split. congruence.
Qed.

(** One loop iteration either leaves the feed and the cache as they were,
    or commits a delivered item. *)
Lemma process_item_cases (X : Ext) (env : Env) (isAtom : bool) (lang : string)
    (rr : option (string -> string)) (rt : option (string -> list (list string)))
    (f f' : Feed) (sh sh' : Shared) (it : Item) :
  process_item X env isAtom lang rr rt (f, sh) it = Some (f', sh') ->
  (f' = f /\ cache sh' = cache sh) \/
  (exists key data,
     item_decision X (now env) isAtom f (cache sh) it
       = Proceed (Z.min (now env) (item_time isAtom it)) key /\
     debugMode env = false /\
     post env (calls sh) key data = Status StatusOK /\
     LastRun f <= Z.min (now env) (item_time isAtom it) /\
     f' = commit_feed f (sendTime env) (Z.min (now env) (item_time isAtom it)) /\
     cache sh' = option_map (cons key) (cache sh)).
Proof.
  unfold process_item.
  destruct (item_decision X (now env) isAtom f (cache sh) it) as [| |pub key] eqn:D.
  - intros H; injection H as <- <-. left; auto.
  - discriminate.
  - apply item_decision_proceed in D as Hp. destruct Hp as [Hpub [Hle _]]. subst pub.
    match goal with |- context [render ?a ?b ?c ?d ?e ?g] => destruct (render a b c d e g) as [msg|] end;
      [|discriminate].
    destruct (debugMode env) eqn:Dbg.
    + intros H; injection H as <- <-. left; auto.
    + set (data := form_data msg (Visibility f) (pick_lang lang (instLang env))).
      destruct (publish_step env key (Z.min (now env) (item_time isAtom it)) data (f, sh))
        as [g shg] eqn:Pub.
      intros H; injection H as <- <-.
      destruct (publish_step_cases _ _ _ _ _ _ _ _ Pub) as [[P [F C]]|[P [F C]]].
      * right. exists key, data. repeat split; assumption.
      * left. auto.
Qed.

(** [LastRun] never goes down and [Interval] is never changed by the
    processing cycle. *)
Definition advances (f f' : Feed) : Prop :=
  LastRun f <= LastRun f' /\ Interval f' = Interval f.

Lemma advances_refl (f : Feed) : advances f f.
Proof. split; reflexivity. Qed.

Lemma advances_trans (f g h : Feed) : advances f g -> advances g h -> advances f h.
Proof. unfold advances. intros [] []. split; [lia | congruence]. Qed.

Lemma commit_advances (f : Feed) (t pub : Z) : advances f (commit_feed f t pub).
Proof.
  unfold advances, commit_feed; simpl. split; [|reflexivity].
  destruct (Z.ltb_spec (LastRun f) pub); lia.
Qed.

Lemma process_item_advances (X : Ext) (env : Env) (isAtom : bool) (lang : string)
    (rr : option (string -> string)) (rt : option (string -> list (list string)))
    (f f' : Feed) (sh sh' : Shared) (it : Item) :
  process_item X env isAtom lang rr rt (f, sh) it = Some (f', sh') -> advances f f'.
Proof.
  intros H. destruct (process_item_cases _ _ _ _ _ _ _ _ _ _ _ H)
    as [[-> _]|[key [data [_ [_ [_ [_ [-> _]]]]]]]].
  - apply advances_refl.
  - apply commit_advances.
Qed.

Lemma run_items_advances (X : Ext) (env : Env) (isAtom : bool) (lang : string)
    (rr : option (string -> string)) (rt : option (string -> list (list string)))
    (items : list Item) (f f' : Feed) (sh sh' : Shared) :
  run_items X env isAtom lang rr rt (f, sh) items = Some (f', sh') -> advances f f'.
Proof.
  revert f sh. induction items as [|it r IH]; intros f sh; cbn [run_items].
  - intros H; injection H as <- <-. apply advances_refl.
  - destruct (process_item X env isAtom lang rr rt (f, sh) it) as [[g shg]|] eqn:P;
      [|discriminate].
    intros H. eapply advances_trans; [eapply process_item_advances; exact P | exact (IH _ _ H)].
Qed.

Lemma getFeed_advances (X : Ext) (env : Env) (f f' : Feed) (sh sh' : Shared) :
  getFeed X env f sh = Some (f', sh') -> advances f f'.
Proof.
  unfold getFeed. destruct (fetch env (FeedUrl f)) as [pf|].
  - apply run_items_advances.
  - intros H; injection H as <- <-. apply advances_refl.
Qed.

Lemma tick_feed_advances (X : Ext) (env : Env) (f f' : Feed) (sh sh' : Shared) :
  tick_feed X env sh f = Some (f', sh') -> advances f f'.
Proof.
  unfold tick_feed.
  destruct (negb (is_empty (FeedUrl f)) && negb (is_empty (Token f))).
  - destruct (Interval (set_Progress f (wrap64 (Progress f + 1))) <=?
              Progress (set_Progress f (wrap64 (Progress f + 1)))).
    + intros H. apply getFeed_advances in H.
      eapply advances_trans; [|exact H]. split; simpl; lia.
    + intros H; injection H as <- <-. split; simpl; lia.
  - intros H; injection H as <- <-. apply advances_refl.
Qed.

Lemma Start_advances (X : Ext) (env : Env) (sh sh' : Shared) (fs fs' : list Feed) :
  Start X env sh fs = Some (fs', sh') -> Forall2 advances fs fs'.
Proof.
  revert sh fs'. induction fs as [|f r IH]; intros sh fs'; cbn [Start].
  - intros H; injection H as <- <-. constructor.
  - destruct (tick_feed X env sh f) as [[g shg]|] eqn:T; [|discriminate].
    destruct (Start X env shg r) as [[r' sh'']|] eqn:S; [|discriminate].
    intros H; injection H as <- <-. constructor.
    + eapply tick_feed_advances; exact T.
    + eapply IH; exact S.
Qed.

Lemma Forall2_advances_trans (fs gs hs : list Feed) :
  Forall2 advances fs gs -> Forall2 advances gs hs -> Forall2 advances fs hs.
Proof.
  intros H1. revert hs. induction H1 as [|f g fs gs Hfg _ IH]; intros hs H2;
    inversion H2; subst; constructor; [eapply advances_trans; eauto | auto].
Qed.

Lemma Forall2_advances_refl (fs : list Feed) : Forall2 advances fs fs.
Proof. induction fs; constructor; [apply advances_refl | assumption]. Qed.

Lemma Cycles_advances (X : Ext) (envs : list Env) (sh sh' : Shared) (fs fs' : list Feed) :
  Cycles X envs sh fs = Some (fs', sh') -> Forall2 advances fs fs'.
Proof.
  revert sh fs. induction envs as [|env r IH]; intros sh fs; cbn [Cycles].
  - intros H; injection H as <- <-. apply Forall2_advances_refl.
  - destruct (Start X env sh fs) as [[gs shg]|] eqn:S; [|discriminate].
    intros H. eapply Forall2_advances_trans; [eapply Start_advances; exact S | exact (IH _ _ H)].
Qed.

Lemma In_insert_desc (t : Item -> Z) (x y : Item) (l : list Item) :
  In y (insert_desc t x l) <-> y = x \/ In y l.
Proof.
  induction l as [|z l IH]; simpl; [intuition congruence|].
  destruct (t z <? t x); simpl; [intuition congruence|]. rewrite IH. intuition congruence.
Qed.

Lemma In_sort_desc (t : Item -> Z) (y : Item) (l : list Item) :
  In y (sort_desc t l) <-> In y l.
Proof.
  induction l as [|x l IH]; simpl; [tauto|]. rewrite In_insert_desc, IH. intuition congruence.
Qed.

Lemma In_loop_order (isAtom : bool) (it : Item) (items : list Item) :
  In it items -> In it (loop_order isAtom items).
Proof. unfold loop_order. rewrite <- in_rev, In_sort_desc. auto. Qed.

(** With a name shorter than two bytes no item is ever delivered: every
    iteration skips or panics. *)
Lemma process_item_short_name (X : Ext) (env : Env) (isAtom : bool) (lang : string)
    (rr : option (string -> string)) (rt : option (string -> list (list string)))
    (f : Feed) (sh : Shared) (it : Item) :
  len (Name f) < 2 ->
  process_item X env isAtom lang rr rt (f, sh) it = Some (f, sh) \/
  process_item X env isAtom lang rr rt (f, sh) it = None.
Proof.
  intros Hn. unfold process_item.
  destruct (item_decision X (now env) isAtom f (cache sh) it) as [| |pub key] eqn:D; auto.
  apply item_decision_proceed in D as [_ [_ K]].
  rewrite idempotency_key_short in K by exact Hn. discriminate.
Qed.

Lemma run_items_short_name_panics (X : Ext) (env : Env) (isAtom : bool) (lang : string)
    (rr : option (string -> string)) (rt : option (string -> list (list string)))
    (f : Feed) (sh : Shared) (it : Item) (items : list Item) :
  len (Name f) < 2 -> In it items ->
  now env - earlierSeconds <= item_time isAtom it ->
  LastRun f <= Z.min (now env) (item_time isAtom it) ->
  run_items X env isAtom lang rr rt (f, sh) items = None.
Proof.
  intros Hn Hin Hh Hw. induction items as [|x r IH]; [contradiction|].
  cbn [run_items]. destruct Hin as [->|Hin].
  - unfold process_item at 1.
    rewrite (item_decision_short_name X (now env) isAtom f (cache sh) it Hn Hh Hw).
    reflexivity.
  - destruct (process_item_short_name X env isAtom lang rr rt f sh x Hn) as [E|E];
      rewrite E; [exact (IH Hin) | reflexivity].
Qed.

(** The effect of one iteration on [Count] and [LastRun]. *)
Lemma process_item_count (X : Ext) (env : Env) (isAtom : bool) (lang : string)
    (rr : option (string -> string)) (rt : option (string -> list (list string)))
    (f f' : Feed) (sh sh' : Shared) (it : Item) :
  process_item X env isAtom lang rr rt (f, sh) it = Some (f', sh') ->
  (Count f' = Count f /\ LastRun f' = LastRun f) \/
  (Count f' = wrap64 (Count f + 1) /\
   LastRun f <= Z.min (now env) (item_time isAtom it) /\
   LastRun f' = Z.min (now env) (item_time isAtom it)).
Proof.
  intros H. destruct (process_item_cases _ _ _ _ _ _ _ _ _ _ _ H)
    as [[-> _]|[key [data [_ [_ [_ [Hle [-> _]]]]]]]]; [left; auto|right].
  unfold commit_feed; simpl. split; [reflexivity | split; [exact Hle|]].
  destruct (Z.ltb_spec (LastRun f) (Z.min (now env) (item_time isAtom it))); lia.
Qed.

Lemma insert_desc_perm (t : Item -> Z) (x : Item) (l : list Item) :
  Permutation (insert_desc t x l) (x :: l).
Proof.
  induction l as [|y l IH]; cbn [insert_desc]; [reflexivity|].
  destruct (t y <? t x); [reflexivity|].
  rewrite IH. apply perm_swap.
Qed.

Lemma sort_desc_perm (t : Item -> Z) (l : list Item) : Permutation (sort_desc t l) l.
Proof.
  induction l as [|x l IH]; cbn [sort_desc]; [reflexivity|].
  rewrite insert_desc_perm, IH. reflexivity.
Qed.

Lemma insert_desc_sorted (t : Item -> Z) (x : Item) (l : list Item) :
  StronglySorted (fun a b => t b <= t a) l ->
  StronglySorted (fun a b => t b <= t a) (insert_desc t x l).
Proof.
  induction l as [|y l IH]; intros H; cbn [insert_desc].
  - repeat constructor.
  - apply StronglySorted_inv in H as [Hs Hf].
    destruct (Z.ltb_spec (t y) (t x)) as [Hlt|Hge].
    + constructor; [constructor; assumption|].
      constructor; [lia|]. eapply Forall_impl; [|exact Hf]. cbv beta. intros z Hz. lia.
    + constructor; [exact (IH Hs)|].
      apply Forall_forall. intros z Hz. apply In_insert_desc in Hz as [->|Hz]; [lia|].
      rewrite Forall_forall in Hf. exact (Hf z Hz).
Qed.

Lemma sort_desc_sorted (t : Item -> Z) (l : list Item) :
  StronglySorted (fun a b => t b <= t a) (sort_desc t l).
Proof.
  induction l as [|x l IH]; cbn [sort_desc]; [constructor|].
  apply insert_desc_sorted. exact IH.
Qed.

Lemma StronglySorted_snoc {A : Type} (R : A -> A -> Prop) (l : list A) (x : A) :
  StronglySorted R l -> Forall (fun y => R y x) l -> StronglySorted R (app l [x]).
Proof.
  induction l as [|y l IH]; intros Hs Hf; cbn [app].
  - repeat constructor.
  - apply StronglySorted_inv in Hs as [Hs Hy]. inversion Hf as [|? ? Hyx Hf']; subst.
    constructor; [exact (IH Hs Hf')|].
    apply Forall_app. split; [exact Hy | constructor; [exact Hyx | constructor]].
Qed.

Lemma StronglySorted_rev {A : Type} (R : A -> A -> Prop) (l : list A) :
  StronglySorted (fun a b => R b a) l -> StronglySorted R (rev l).
Proof.
  induction l as [|x l IH]; intros H; cbn [rev]; [constructor|].
  apply StronglySorted_inv in H as [Hs Hf]. apply StronglySorted_snoc; [exact (IH Hs)|].
  apply Forall_forall. intros y Hy. apply in_rev in Hy.
  rewrite Forall_forall in Hf. exact (Hf y Hy).
Qed.

Lemma StronglySorted_map_Z (t : Item -> Z) (l : list Item) :
  StronglySorted (fun a b => t a <= t b) l -> StronglySorted Z.le (map t l).
Proof.
  induction l as [|x l IH]; intros H; cbn [map]; [constructor|].
  apply StronglySorted_inv in H as [Hs Hf]. constructor; [exact (IH Hs)|].
  apply Forall_map. exact Hf.
Qed.

(** The loop visits the items in ascending order of their timestamps, each
    item once. *)
Lemma loop_order_ascending (isAtom : bool) (items : list Item) :
  StronglySorted Z.le (map (item_time isAtom) (loop_order isAtom items)) /\
  Permutation (loop_order isAtom items) items.
Proof.
  unfold loop_order. split.
  - apply StronglySorted_map_Z, StronglySorted_rev, sort_desc_sorted.
  - rewrite <- Permutation_rev. apply sort_desc_perm.
Qed.

Lemma loop_order_three (isAtom : bool) (i1 i2 i3 : Item) (T : Z) :
  item_time isAtom i1 = T - 3 -> item_time isAtom i2 = T - 1 -> item_time isAtom i3 = T - 2 ->
  loop_order isAtom [i1; i2; i3] = [i1; i3; i2].
Proof.
  intros H1 H2 H3. unfold loop_order. cbn [sort_desc insert_desc].
  rewrite H2, H3. destruct (Z.ltb_spec (T - 2) (T - 1)); [|lia].
  cbn [insert_desc]. rewrite H1, H2, H3.
  destruct (Z.ltb_spec (T - 1) (T - 3)); [lia|].
  destruct (Z.ltb_spec (T - 2) (T - 3)); [lia|]. reflexivity.
Qed.

Lemma substring_full (s : string) : substring 0 (String.length s) s = s.
Proof. induction s as [|a s IH]; simpl; congruence. Qed.

Lemma substring_prefix (m : nat) (s : string) : prefix_of (substring 0 m s) s.
Proof.
  unfold prefix_of. revert m. induction s as [|a s IH]; intros m; destruct m; simpl.
  - exists EmptyString; reflexivity.
  - exists EmptyString; reflexivity.
  - exists (String a s); reflexivity.
  - destruct (IH m) as [r Hr]. exists r. rewrite <- Hr. reflexivity.
Qed.

Lemma prefix_refl (s : string) : prefix_of s s.
Proof. exists EmptyString. induction s; simpl; congruence. Qed.

Lemma prefix_trans (a b c : string) : prefix_of a b -> prefix_of b c -> prefix_of a c.
Proof. intros [r1 ->] [r2 ->]. exists (r1 ++ r2). apply append_assoc_s. Qed.

Lemma slice_to_prefix (s p : string) (n : Z) : slice_to s n = Some p -> prefix_of p s.
Proof.
  unfold slice_to. destruct ((n <? 0) || (len s <? n)); [discriminate|].
  intros H; injection H as <-. apply substring_prefix.
Qed.

(** Case analysis on the truncation, keeping track of the prefixes. *)
Ltac slice_prefix_cases :=
  repeat (cbv beta iota zeta;
    match goal with
    | |- context [slice_to ?s ?n] =>
        let E := fresh "E" in
        destruct (slice_to s n) eqn:E; [apply slice_to_prefix in E |]
    | |- context [byte_at ?s ?i] => destruct (byte_at s i)
    | |- context [if ?b then _ else _] => destruct b
    end).

Lemma truncate_prefix (limit l : Z) (description r : string) :
  truncate_description limit l description = Some r ->
  exists p, prefix_of p description /\ r = p ++ ellipsis.
Proof.
  unfold truncate_description. slice_prefix_cases; intros H; try discriminate;
    injection H as <-; eexists; (split; [|reflexivity]); eauto 10 using prefix_trans, prefix_refl.
Qed.

(** * Claims *)

(** ** C1: the two tiers of the dedup decision *)

(** C1 (counterexample): with a cache available and empty, an item one
    second below [f.LastRun] is skipped, although the cache does not hold
    its key: the decision is not left to the cache. *)
Lemma C1_cache_does_not_decide_below_watermark :
  let f := feed0 "ab" 10 50000 in
  let it := item0 "g" 49999 in
  idempotency_key ext0 f it = Some "ab:g" /\
  existsb (String.eqb "ab:g") [] = false /\
  item_decision ext0 60000 false f (Some []) it = Skip.
Proof. vm_compute. repeat split. Qed.

(** C1 (amended): every item whose effective timestamp (publish time capped
    at [now]) is below [f.LastRun] is skipped, with or without a cache.
    Without a cache, an item at or below [f.LastRun] is never transformed
    nor published (it is skipped, as soon as the feed name has two bytes).
    With a cache, an item at or above [f.LastRun] inside the 12-hour
    horizon whose key can be built is skipped exactly when the cache holds
    its key. *)
Theorem C1_watermark_tiers (X : Ext) (now : Z) (isAtom : bool) (f : Feed)
    (it : Item) :
  let eff := Z.min now (item_time isAtom it) in
  (forall c, eff < LastRun f -> item_decision X now isAtom f c it = Skip) /\
  (eff <= LastRun f -> forall p k, item_decision X now isAtom f None it <> Proceed p k) /\
  (eff <= LastRun f -> 2 <= len (Name f) -> item_decision X now isAtom f None it = Skip) /\
  (forall keys key,
     now - earlierSeconds <= item_time isAtom it -> LastRun f <= eff ->
     idempotency_key X f it = Some key ->
     item_decision X now isAtom f (Some keys) it =
       if existsb (String.eqb key) keys then Skip else Proceed eff key).
Proof.
  cbv zeta. unfold item_decision. rewrite effective_time.
  set (t := item_time isAtom it). set (eff := Z.min now t).
  repeat split.
  - intros c Hlt. destruct (t <? now - earlierSeconds); [reflexivity|].
    destruct (Z.ltb_spec eff (LastRun f)); [reflexivity | lia].
  - intros Hle p k. destruct (t <? now - earlierSeconds); [discriminate|].
    destruct (eff <? LastRun f); [discriminate|].
    destruct (idempotency_key X f it); [|discriminate].
    destruct (Z.leb_spec eff (LastRun f)); [discriminate | lia].
  - intros Hle Hn. destruct (t <? now - earlierSeconds); [reflexivity|].
    destruct (eff <? LastRun f); [reflexivity|].
    unfold idempotency_key, slice_to.
    destruct (Z.ltb_spec 2 0); [lia|]. destruct (Z.ltb_spec (len (Name f)) 2); [lia|].
    simpl. destruct (Z.leb_spec eff (LastRun f)); [reflexivity | lia].
  - intros keys key Hh Hge Hk.
    destruct (Z.ltb_spec t (now - earlierSeconds)); [lia|].
    destruct (Z.ltb_spec eff (LastRun f)); [lia|].
    rewrite Hk. reflexivity.
Qed.

(** ** C4: the truncation boundary *)

(** C4 (counterexample): for limit 50, a 5-byte title, no hashtags, a
    20-byte link and a 100-byte body with a word boundary, the rendered
    text is short enough but ends with the link, not with " [...]". *)
Lemma C4_text_ends_with_link :
  ~ (forall msg, render 50 None "Title" EmptyString link20 body100 = Some msg ->
       len msg <= 50 /\ ends_with ellipsis msg = true).
Proof.
  intros H. destruct (H ("Title" ++ nlnl ++ "aaaaa [...]" ++ nlnl ++ link20)) as [_ E];
    [vm_compute; reflexivity | vm_compute in E; discriminate].
Qed.

(** C4 (amended): in that setting, whenever rendering returns a text, the
    text has at most 50 bytes and is the title, a blank line, the cut body
    ending in " [...]", a blank line and the link; the cut body [d] is a
    prefix of the body of at most [50 - 25 - 11 = 14] bytes. *)
Theorem C4_truncation_boundary (title link body msg : string) :
  len title = 5 -> len link = 20 -> len body = 100 ->
  render 50 None title EmptyString link body = Some msg ->
  len msg <= 50 /\
  exists d, prefix_of d body /\ len d <= 14 /\
            msg = title ++ nlnl ++ d ++ ellipsis ++ nlnl ++ link.
Proof.
  intros Ht Hl Hb. unfold render.
  replace (len title + len EmptyString + len link) with 25
    by (rewrite Ht, Hl; reflexivity).
  rewrite Hb. cbv beta iota zeta. change (50 <? 25 + 100) with true. cbv iota.
  destruct (truncate_description 50 25 body) as [r|] eqn:E; [|discriminate].
  destruct (truncate_prefix _ _ _ _ E) as [p [Hp Er]].
  apply truncate_some in E as [d [-> Hd]].
  apply append_cancel_r in Er. subst p.
  change (is_empty EmptyString) with true. cbv iota.
  replace (is_empty (d ++ ellipsis)) with false
    by (destruct d; reflexivity).
  intros H; injection H as <-. split.
  - repeat rewrite ?len_append, ?len_cons. rewrite Ht, Hl.
    change (len ellipsis) with 6. change (len nlnl) with 2. lia.
  - exists d. split; [exact Hp|]. split; [lia|]. rewrite !append_assoc_s. reflexivity.
Qed.

(** ** C5: over-length title, hashtags and link *)

(** C5 (code bug): with limit 50, a 30-byte title, no hashtags, a 20-byte
    link and a 10-byte body, [description[:n]] is taken with [n = -11] and
    rendering panics instead of returning an over-length text.  More
    generally, rendering panics whenever the body must be cut and fewer than
    13 bytes are left for it. *)
Theorem C5_overlength_render_panics :
  render 50 None title30 EmptyString link20 body10 = None /\
  (forall limit rr title hashtags link d,
     limit < len title + len hashtags + len link + len d ->
     limit - (len title + len hashtags + len link) - 11 < 2 ->
     render limit rr title hashtags link d = None).
Proof.
  split; [vm_compute; reflexivity|].
  intros limit rr title hashtags link d Hover Hshort. unfold render.
  destruct (Z.ltb_spec limit (len title + len hashtags + len link + len d)); [|lia].
  rewrite truncate_short_panics by exact Hshort. reflexivity.
Qed.

(** ** C8: hashtag derivation *)

(** C8: categories ["Tech - News"] without prefix give "#TechNews";
    ["Polska"] with prefix "PL" give "#Polska #PLPolska"; ["PLPolska"] with
    prefix "PL" give "#PLPolska". *)
Theorem C8_hashtag_examples (it : Item) (f : Feed) (re : option (string -> list (list string))) :
  (Categories it = Some ["Tech - News"] -> Prefix f = EmptyString ->
     makeHashtags it f re = "#TechNews") /\
  (Categories it = Some ["Polska"] -> Prefix f = "PL" ->
     makeHashtags it f re = "#Polska #PLPolska") /\
  (Categories it = Some ["PLPolska"] -> Prefix f = "PL" ->
     makeHashtags it f re = "#PLPolska").
Proof.
  unfold makeHashtags. repeat split; intros Hc Hp; rewrite Hc, Hp; vm_compute; reflexivity.
Qed.

(** ** C2: monotonicity of [LastRun] *)

(** C2: neither [getFeed] (whose only write to [f.LastRun] is the success
    commit) nor any number of [Start] cycles ever lowers a feed's
    [LastRun], whatever the cache, the clock and the endpoint's answers. *)
Theorem C2_lastRun_monotone (X : Ext) :
  (forall env f f' sh sh', getFeed X env f sh = Some (f', sh') -> LastRun f <= LastRun f') /\
  (forall envs sh sh' fs fs', Cycles X envs sh fs = Some (fs', sh') ->
     Forall2 (fun f f' => LastRun f <= LastRun f') fs fs').
Proof.
  split.
  - intros env f f' sh sh' H. apply getFeed_advances in H. apply H.
  - intros envs sh sh' fs fs' H. apply Cycles_advances in H.
    induction H as [|f f' fs fs' [Hle _] _ IH]; constructor; assumption.
Qed.

(** ** C3: what counts as a successful publication *)

(** C3 (counterexample): the endpoint answering 201 Created is not a
    success: nothing is counted, cached or advanced. *)
Lemma C3_created_is_not_success :
  let '(f', sh') := publish_step (env0 1000 None StatusCreated) "ab:g" 999 []
                      (feed0 "ab" 10 500, shared0 (Some [])) in
  Count f' = 0 /\ LastRun f' = 500 /\ cache sh' = Some [].
Proof. vm_compute. repeat split. Qed.

(** C3 (amended): a request succeeds exactly when the endpoint answers
    200 OK; then the key is cached, [Count] is incremented and [LastRun]
    moves up to the item's time.  On any other status, a transport error or
    a request that cannot be built, none of the three happens. *)
Theorem C3_commit_only_on_StatusOK (env : Env) (key : string) (pub : Z)
    (data : list (string * string)) (f : Feed) (sh : Shared) :
  let '(f', sh') := publish_step env key pub data (f, sh) in
  (post env (calls sh) key data = Status StatusOK ->
     Count f' = wrap64 (Count f + 1) /\ LastRun f' = Z.max (LastRun f) pub /\
     cache sh' = option_map (cons key) (cache sh)) /\
  (post env (calls sh) key data <> Status StatusOK ->
     Count f' = Count f /\ LastRun f' = LastRun f /\ cache sh' = cache sh).
Proof.
  destruct (publish_step env key pub data (f, sh)) as [f' sh'] eqn:E.
  destruct (publish_step_cases _ _ _ _ _ _ _ _ E) as [[P [-> C]]|[P [-> C]]].
  - split; [|contradiction]. intros _. unfold commit_feed; simpl.
    repeat split; [|assumption]. destruct (Z.ltb_spec (LastRun f) pub); lia.
  - split; [contradiction|]. auto.
Qed.

(** ** C7: interval normalization *)

(** C7 (counterexample): a configured interval of -5 is kept by
    initialization. *)
Lemma C7_negative_interval_kept :
  map Interval (snd (NewFeedsMonitor ext0 100000 0 [feed0 "ab" (-5) 1000])) = [-5].
Proof. vm_compute. reflexivity. Qed.

(** C7 (amended): initialization replaces an unset (zero) interval by 10
    and keeps any other value, negative ones included, so every interval is
    non-zero afterwards; the processing cycles never change an interval. *)
Theorem C7_interval_defaulting (X : Ext) (now monit lm : Z) (fs fs' : list Feed) :
  NewFeedsMonitor X now monit fs = (lm, fs') ->
  Forall2 (fun f f' => Interval f' = if Interval f =? 0 then DefaultCheckInterval else Interval f)
    fs fs' /\
  Forall (fun f' => Interval f' <> 0) fs' /\
  (forall envs sh sh' fs'', Cycles X envs sh fs' = Some (fs'', sh') ->
     Forall2 (fun f f' => Interval f' = Interval f) fs' fs'').
Proof.
  unfold NewFeedsMonitor, setDefaultValues. intros H; injection H as _ <-.
  split; [|split].
  - induction fs as [|f r IH]; constructor; [reflexivity | exact IH].
  - induction fs as [|f r IH]; constructor; [|exact IH].
    simpl. destruct (Z.eqb_spec (Interval f) 0); [discriminate | assumption].
  - intros envs sh sh' fs'' H. apply Cycles_advances in H.
    induction H as [|f f' r r' [_ He] _ IH]; constructor; assumption.
Qed.

(** ** C9: the watermark bump at initialization *)

(** C9 (counterexample): with a configured interval of -5 and [LastRun]
    1000, initialization moves the watermark back to 700. *)
Lemma C9_negative_interval_lowers_watermark :
  map LastRun (snd (NewFeedsMonitor ext0 100000 0 [feed0 "ab" (-5) 1000])) = [700].
Proof. vm_compute. reflexivity. Qed.

(** C9 (amended): with [D] the defaulted watermark ([LastRun], or
    [fm.LastMonit()] when it is 0) and [I] the defaulted interval,
    [setDefaultValues] sets [LastRun] to [D + 60*I] in int64 arithmetic.
    When [I > 0] and nothing overflows, the watermark is one interval ahead
    of [D], and every item whose effective time is below it is skipped,
    with or without a cache. *)
Theorem C9_watermark_bump (X : Ext) (lm : Z) (f : Feed) :
  let D := if LastRun f =? 0 then lm else LastRun f in
  let I := if Interval f =? 0 then DefaultCheckInterval else Interval f in
  LastRun (setDefault_feed X lm f) = wrap64 (D + wrap64 (60 * I)) /\
  (0 < I -> -2 ^ 63 <= D -> 60 * I < 2 ^ 63 -> D + 60 * I < 2 ^ 63 ->
   LastRun (setDefault_feed X lm f) = D + 60 * I /\
   D < LastRun (setDefault_feed X lm f) /\
   forall now isAtom c it,
     Z.min now (item_time isAtom it) < LastRun (setDefault_feed X lm f) ->
     item_decision X now isAtom (setDefault_feed X lm f) c it = Skip).
Proof.
  cbv zeta. split; [reflexivity|].
  intros HI HD H60 Hsum.
  assert (E : LastRun (setDefault_feed X lm f)
              = (if LastRun f =? 0 then lm else LastRun f)
                + 60 * (if Interval f =? 0 then DefaultCheckInterval else Interval f)).
  { unfold setDefault_feed. cbv zeta. cbn [LastRun].
    rewrite (wrap64_id (60 * _)) by lia. apply wrap64_id. lia. }
  split; [exact E | split; [lia|]].
  intros now isAtom c it Hlt. apply item_below_watermark_skipped. exact Hlt.
Qed.

(** ** C6: oldest-first processing *)

(** C6 (counterexample): with [T = 100000], items at [T-3], [T-1], [T-2],
    [LastRun = T-4], a cache, and the clock at [T-2], the items are
    evaluated oldest first and all three are published successfully, but
    the newest one is capped at [now] and [LastRun] ends at [T-2]. *)
Lemma C6_future_item_capped :
  let pf := mkParsedFeed "rss" "en" [item0 "a" 99997; item0 "b" 99999; item0 "c" 99998] in
  map (item_time false) (loop_order false (Items pf)) = [99997; 99998; 99999] /\
  option_map (fun r => (Count (fst r), LastRun (fst r)))
    (getFeed ext0 (env0 99998 (Some pf) StatusOK) (feed0 "ab" 10 99996) (shared0 (Some [])))
  = Some (3, 99998).
Proof. vm_compute. split; reflexivity. Qed.

(** C6 (amended): [getFeed] evaluates the fetched items (any number of
    them) in ascending order of their timestamps (publish time for RSS,
    update time for Atom), each item once; items at [T-3], [T-1], [T-2]
    are evaluated in the order [T-3], [T-2], [T-1];
    with [LastRun = T-4], if all three publications succeed ([Count] grows
    by 3), [LastRun] ends at [min(T-1, now)], that is at [T-1] unless that
    time is in the future. *)
Theorem C6_oldest_first (X : Ext) (env : Env) (f f' : Feed) (sh sh' : Shared)
    (pf : ParsedFeed) (i1 i2 i3 : Item) (T : Z) :
  let isAtom := String.eqb (FeedType pf) "atom" in
  fetch env (FeedUrl f) = Some pf -> Items pf = [i1; i2; i3] ->
  item_time isAtom i1 = T - 3 -> item_time isAtom i2 = T - 1 ->
  item_time isAtom i3 = T - 2 -> LastRun f = T - 4 ->
  (forall (isAtom' : bool) (items : list Item),
     StronglySorted Z.le (map (item_time isAtom') (loop_order isAtom' items)) /\
     Permutation (loop_order isAtom' items) items /\
     (fetch env (FeedUrl f) = Some (mkParsedFeed (FeedType pf) (Language pf) items) ->
      exists rr rt, getFeed X env f sh =
        run_items X env isAtom (Language pf) rr rt (f, sh) (loop_order isAtom items))) /\
  map (item_time isAtom) (loop_order isAtom (Items pf)) = [T - 3; T - 2; T - 1] /\
  (getFeed X env f sh = Some (f', sh') -> 0 <= Count f <= 2 ^ 62 ->
   Count f' = Count f + 3 -> LastRun f' = Z.min (now env) (T - 1)).
Proof.
  intros isAtom Hfetch Hitems H1 H2 H3 Hlr.
  split.
  { intros isAtom' items. destruct (loop_order_ascending isAtom' items) as [Hs Hp].
    split; [exact Hs|]. split; [exact Hp|].
    intros Hf. unfold getFeed. rewrite Hf. cbv zeta. cbn [FeedType Language Items].
    eexists; eexists; reflexivity. }
  rewrite Hitems, (loop_order_three isAtom i1 i2 i3 T H1 H2 H3).
  split; [simpl; rewrite H1, H2, H3; reflexivity|].
  unfold getFeed. rewrite Hfetch. cbv zeta. fold isAtom. rewrite Hitems.
  rewrite (loop_order_three isAtom i1 i2 i3 T H1 H2 H3). cbn [run_items].
  match goal with |- context [process_item X env isAtom ?lg ?rr ?rt (f, sh) i1] =>
    destruct (process_item X env isAtom lg rr rt (f, sh) i1) as [[f1 sh1]|] eqn:P1;
    [|discriminate];
    destruct (process_item X env isAtom lg rr rt (f1, sh1) i3) as [[f2 sh2]|] eqn:P2;
    [|discriminate];
    destruct (process_item X env isAtom lg rr rt (f2, sh2) i2) as [[f3 sh3]|] eqn:P3;
    [|discriminate] end.
  intros H Hc Hcount. injection H as <- <-.
  apply process_item_count in P1, P2, P3.
  destruct P1 as [[C1 L1]|[C1 [L1a L1b]]]; try rewrite wrap64_id in C1 by lia;
  destruct P2 as [[C2 L2]|[C2 [L2a L2b]]]; try rewrite wrap64_id in C2 by lia;
  destruct P3 as [[C3 L3]|[C3 [L3a L3b]]]; try rewrite wrap64_id in C3 by lia;
  try lia.
Qed.

(** ** C10: the idempotency key needs a two-byte feed name *)

(** C10: a feed left without a name by initialization (empty name, URL
    without a host or not parseable) keeps the empty name; and for a feed
    whose name is shorter than two bytes, [getFeed] panics as soon as the
    fetch holds an item inside the 12-hour horizon that is not below
    [LastRun], whether or not a cache is available. *)
Theorem C10_short_name_panics (X : Ext) :
  (forall lm g, Name g = EmptyString ->
     urlHostname X (FeedUrl g) = None \/ urlHostname X (FeedUrl g) = Some EmptyString ->
     Name (setDefault_feed X lm g) = EmptyString) /\
  (forall env f sh pf it,
     let isAtom := String.eqb (FeedType pf) "atom" in
     len (Name f) < 2 -> fetch env (FeedUrl f) = Some pf -> In it (Items pf) ->
     now env - earlierSeconds <= item_time isAtom it ->
     LastRun f <= Z.min (now env) (item_time isAtom it) ->
     getFeed X env f sh = None).
Proof.
  split.
  - intros lm g Hn Hh. unfold setDefault_feed. cbv zeta. cbn [Name].
    rewrite Hn. change (is_empty EmptyString) with true. cbv iota.
    destruct Hh as [-> | ->]; reflexivity.
  - intros env f sh pf it isAtom Hn Hf Hin Hh Hw. unfold getFeed. rewrite Hf. cbv zeta.
    apply run_items_short_name_panics with (it := it); auto.
    apply In_loop_order. exact Hin.
Qed.

(** * Witnesses: the theorems applied at concrete inputs *)

Lemma C1_watermark_tiers_witness :
  (Z.min 60000 (item_time false (item0 "g" 50000)) <= LastRun (feed0 "ab" 10 50000) /\
   2 <= len (Name (feed0 "ab" 10 50000))) /\
  item_decision ext0 60000 false (feed0 "ab" 10 50000) None (item0 "g" 50000) = Skip.
Proof.
  split; [split; apply Z.leb_le; reflexivity|].
  destruct (C1_watermark_tiers ext0 60000 false (feed0 "ab" 10 50000) (item0 "g" 50000))
    as [_ [_ [H _]]].
  apply H; apply Z.leb_le; reflexivity.
Defined.

Lemma C2_lastRun_monotone_witness :
  let pf := mkParsedFeed "rss" "en" [item0 "a" 99997; item0 "b" 99999] in
  let envs := [env0 100000 (Some pf) StatusOK; env0 100060 (Some pf) StatusOK] in
  Cycles ext0 envs (shared0 None) [feed0 "ab" 1 99996] <> None /\
  match Cycles ext0 envs (shared0 None) [feed0 "ab" 1 99996] with
  | Some (fs', _) => Forall2 (fun f f' => LastRun f <= LastRun f') [feed0 "ab" 1 99996] fs'
  | None => False
  end.
Proof.
  intros pf envs. split; [vm_compute; discriminate|].
  destruct (Cycles ext0 envs (shared0 None) [feed0 "ab" 1 99996]) as [[fs' sh']|] eqn:E;
    [|vm_compute in E; discriminate].
  exact (proj2 (C2_lastRun_monotone ext0) envs (shared0 None) sh' _ fs' E).
Defined.

Lemma C3_commit_only_on_StatusOK_witness :
  post (env0 1000 None StatusOK) 0 "ab:g" [] = Status StatusOK /\
  Count (fst (publish_step (env0 1000 None StatusOK) "ab:g" 999 []
                (feed0 "ab" 10 500, shared0 None))) = 1.
Proof.
  split; [reflexivity|].
  pose proof (C3_commit_only_on_StatusOK (env0 1000 None StatusOK) "ab:g" 999 []
                (feed0 "ab" 10 500) (shared0 None)) as H.
  revert H.
  destruct (publish_step (env0 1000 None StatusOK) "ab:g" 999 [] (feed0 "ab" 10 500, shared0 None))
    as [f' sh'].
  intros [H _]. destruct (H eq_refl) as [C _]. simpl. rewrite C. reflexivity.
Defined.

Lemma C4_truncation_boundary_witness :
  (len "Title" = 5 /\ len link20 = 20 /\ len body100b = 100) /\
  len ("Title" ++ nlnl ++ "aaaa bbbbb [...]" ++ nlnl ++ link20) <= 50.
Proof.
  split; [vm_compute; repeat split|].
  apply (proj1 (C4_truncation_boundary "Title" link20 body100b _ eq_refl eq_refl eq_refl eq_refl)).
Defined.

Lemma C5_overlength_render_panics_witness :
  (50 < len title30 + len EmptyString + len link20 + len body10 /\
   50 - (len title30 + len EmptyString + len link20) - 11 < 2) /\
  render 50 None title30 EmptyString link20 body10 = None.
Proof.
  split; [vm_compute; split; reflexivity|].
  apply (proj2 C5_overlength_render_panics); vm_compute; reflexivity.
Defined.

Lemma C6_oldest_first_witness :
  let pf := mkParsedFeed "rss" "en" [item0 "a" 99997; item0 "b" 99999; item0 "c" 99998] in
  option_map (fun r => LastRun (fst r))
    (getFeed ext0 (env0 100000 (Some pf) StatusOK) (feed0 "ab" 10 99996) (shared0 None))
  = Some (Z.min 100000 (100000 - 1)).
Proof.
  intros pf.
  destruct (getFeed ext0 (env0 100000 (Some pf) StatusOK) (feed0 "ab" 10 99996) (shared0 None))
    as [[f' sh']|] eqn:E; [|vm_compute in E; discriminate].
  simpl. f_equal.
  destruct (C6_oldest_first ext0 (env0 100000 (Some pf) StatusOK) (feed0 "ab" 10 99996) f'
              (shared0 None) sh' pf (item0 "a" 99997) (item0 "b" 99999) (item0 "c" 99998)
              100000 eq_refl eq_refl eq_refl eq_refl eq_refl eq_refl) as [_ [_ H]].
  pose proof E as E'. vm_compute in E'. injection E' as Ef _.
  apply H; [exact E | simpl; lia | rewrite <- Ef; reflexivity].
Defined.

Lemma C7_interval_defaulting_witness :
  Forall (fun f' => Interval f' <> 0) (snd (NewFeedsMonitor ext0 100000 0 [feed0 "ab" 0 1000])).
Proof.
  exact (proj1 (proj2 (C7_interval_defaulting ext0 100000 0
    (fst (NewFeedsMonitor ext0 100000 0 [feed0 "ab" 0 1000])) [feed0 "ab" 0 1000]
    (snd (NewFeedsMonitor ext0 100000 0 [feed0 "ab" 0 1000])) eq_refl))).
Defined.

Lemma C8_hashtag_examples_witness :
  let it := mkItem "g" 0 0 "t" "d" EmptyString "l" (Some ["Polska"]) in
  (Categories it = Some ["Polska"] /\ Prefix (mkFeed "ab" "u" "k" "PL" "public" EmptyString
     EmptyString EmptyString 10 0 0 0 0) = "PL") /\
  makeHashtags it (mkFeed "ab" "u" "k" "PL" "public" EmptyString EmptyString EmptyString 10 0 0 0 0)
    None = "#Polska #PLPolska".
Proof.
  intros it. split; [split; reflexivity|].
  destruct (C8_hashtag_examples it (mkFeed "ab" "u" "k" "PL" "public" EmptyString EmptyString
              EmptyString 10 0 0 0 0) None) as [_ [H _]].
  apply H; reflexivity.
Defined.

Lemma C9_watermark_bump_witness :
  (0 < 10 /\ -2 ^ 63 <= 1000 /\ 60 * 10 < 2 ^ 63 /\ 1000 + 60 * 10 < 2 ^ 63) /\
  LastRun (setDefault_feed ext0 0 (feed0 "ab" 10 1000)) = 1600.
Proof.
  split; [lia|].
  destruct (C9_watermark_bump ext0 0 (feed0 "ab" 10 1000)) as [_ H]. cbv zeta in H.
  specialize (H ltac:(apply Z.ltb_lt; reflexivity) ltac:(apply Z.leb_le; reflexivity)
                ltac:(apply Z.ltb_lt; reflexivity) ltac:(apply Z.ltb_lt; reflexivity)).
  destruct H as [E _]. rewrite E. reflexivity.
Defined.

Lemma C10_short_name_panics_witness :
  let pf := mkParsedFeed "rss" "en" [item0 "a" 99997] in
  (len (Name (feed0 EmptyString 10 99996)) < 2 /\ In (item0 "a" 99997) (Items pf)) /\
  getFeed ext0 (env0 100000 (Some pf) StatusOK) (feed0 EmptyString 10 99996) (shared0 None) = None.
Proof.
  intros pf. split; [split; [vm_compute; reflexivity | left; reflexivity]|].
  apply (proj2 (C10_short_name_panics ext0) (env0 100000 (Some pf) StatusOK)
           (feed0 EmptyString 10 99996) (shared0 None) pf (item0 "a" 99997));
    [vm_compute; reflexivity | reflexivity | left; reflexivity | simpl; lia | simpl; lia].
Defined.

(** * Further properties of the program *)

(** ** Lemmas *)

Lemma FeedIndex_from_spec (i : Z) (fs : list Feed) (name : string) :
  (FeedIndex_from i fs name = -1 /\ Forall (fun f => has_prefix name (Name f) = false) fs) \/
  (exists pre f post, fs = app pre (f :: post) /\
     FeedIndex_from i fs name = i + Z.of_nat (length pre) /\
     has_prefix name (Name f) = true /\
     Forall (fun g => has_prefix name (Name g) = false) pre).
Proof.
  revert i. induction fs as [|g r IH]; intros i; cbn [FeedIndex_from].
  - left. split; [reflexivity | constructor].
  - destruct (has_prefix name (Name g)) eqn:E.
    + right. exists [], g, r. split; [reflexivity|].
      split; [cbn [List.length]; lia|]. split; [exact E | constructor].
    + destruct (IH (i + 1)) as [[H1 H2]|[pre [h [post [H1 [H2 [H3 H4]]]]]]].
      * left. split; [exact H1 | constructor; assumption].
      * right. exists (g :: pre), h, post. split; [rewrite H1; reflexivity|].
        split; [rewrite H2; cbn [List.length]; lia|]. split; [exact H3 | constructor; assumption].
Qed.

Lemma minute_floor_window (now : Z) :
  (now - now mod 60 - 55 * 60) mod 60 = 0 /\
  now - 3360 < now - now mod 60 - 55 * 60 <= now - 3300.
Proof.
  pose proof (Z.mod_pos_bound now 60 ltac:(lia)) as B.
  pose proof (Z.div_mod now 60 ltac:(lia)) as D.
  split; [|lia].
  replace (now - now mod 60 - 55 * 60) with ((now / 60 - 55) * 60) by lia.
  apply Z.mod_mul. lia.
Qed.

Lemma feedNameReplacer_no_crlf (s : string) : contains_any (feedNameReplacer s) crlf = false.
Proof.
  induction s as [|a s IH]; [reflexivity|]. cbn [feedNameReplacer].
  destruct (Nat.eqb_spec (nat_of_ascii a) 10); [exact IH|].
  destruct (Nat.eqb_spec (nat_of_ascii a) 13); [exact IH|].
  cbn [contains_any]. rewrite IH, orb_false_r. unfold crlf. cbn [mem_char].
  destruct (Ascii.eqb_spec (chr 10) a) as [<-|]; [contradiction|].
  destruct (Ascii.eqb_spec (chr 13) a) as [<-|]; [contradiction|]. reflexivity.
Qed.

Lemma is_empty_len (s : string) : is_empty s = true -> len s = 0.
Proof. unfold is_empty. intros H. apply String.eqb_eq in H. subst. reflexivity. Qed.

Lemma is_empty_false_ellipsis (p : string) : is_empty (p ++ ellipsis) = false.
Proof. destruct p; reflexivity. Qed.

Lemma len_nl : len nl = 1.
Proof. reflexivity. Qed.

Lemma len_nlnl : len nlnl = 2.
Proof. reflexivity. Qed.

Lemma len_ellipsis : len ellipsis = 6.
Proof. reflexivity. Qed.

Lemma len_block (s : string) :
  len (if is_empty s then EmptyString else s ++ nlnl) = (if is_empty s then 0 else len s + 2).
Proof. destruct (is_empty s); [reflexivity | rewrite len_append; reflexivity]. Qed.

(** The two ways [render] composes a text when no replacement is
    configured. *)
Lemma render_plain_cases (limit : Z) (title hashtags link d msg : string) :
  render limit None title hashtags link d = Some msg ->
  (limit < len title + len hashtags + len link + len d /\
   exists p, prefix_of p d /\ len p <= limit - (len title + len hashtags + len link) - 11 /\
     msg = title ++ nlnl ++ ((p ++ ellipsis) ++ nlnl)
           ++ (if is_empty hashtags then EmptyString else hashtags ++ nlnl) ++ link) \/
  (len title + len hashtags + len link + len d <= limit /\
   msg = title ++ nlnl ++ (if is_empty d then EmptyString else d ++ nlnl)
         ++ (if is_empty hashtags then EmptyString else hashtags ++ nlnl) ++ link).
Proof.
  unfold render. cbv zeta.
  destruct (Z.ltb_spec limit (len title + len hashtags + len link + len d)) as [Hlt|Hge];
    cbv beta iota.
  - destruct (truncate_description limit (len title + len hashtags + len link) d) as [r|] eqn:T;
      [|discriminate].
    intros H; injection H as <-. left. split; [exact Hlt|].
    destruct (truncate_prefix _ _ _ _ T) as [p [Hp ->]].
    destruct (truncate_some _ _ _ _ T) as [q [Hq Hlen]].
    assert (len p = len q) by (apply (f_equal len) in Hq; rewrite !len_append in Hq; lia).
    exists p. rewrite is_empty_false_ellipsis. split; [exact Hp | split; [lia | reflexivity]].
  - intros H; injection H as <-. right. split; [exact Hge | reflexivity].
Qed.

Lemma item_decision_horizon (X : Ext) (now : Z) (isAtom : bool) (f : Feed)
    (c : option (list string)) (it : Item) (pub : Z) (key : string) :
  item_decision X now isAtom f c it = Proceed pub key -> now - earlierSeconds <= item_time isAtom it.
Proof.
  unfold item_decision. cbv zeta.
  destruct (Z.ltb_spec (item_time isAtom it) (now - earlierSeconds)); [discriminate|].
  intros _. lia.
Qed.

Lemma decision_cached_skip (X : Ext) (now : Z) (isAtom : bool) (f : Feed)
    (keys : list string) (it : Item) (key : string) :
  In key keys -> idempotency_key X f it = Some key ->
  item_decision X now isAtom f (Some keys) it = Skip.
Proof.
  intros Hin Hk. unfold item_decision. cbv zeta.
  destruct (item_time isAtom it <? now - earlierSeconds); [reflexivity|].
  destruct ((if now <? item_time isAtom it then now else item_time isAtom it) <? LastRun f);
    [reflexivity|].
  rewrite Hk.
  replace (existsb (String.eqb key) keys) with true; [reflexivity|].
  symmetry. apply existsb_exists. exists key. split; [exact Hin | apply String.eqb_refl].
Qed.

(** One loop iteration either changes nothing or is one request. *)
Lemma process_item_publish (X : Ext) (env : Env) (isAtom : bool) (lang : string)
    (rr : option (string -> string)) (rt : option (string -> list (list string)))
    (f f' : Feed) (sh sh' : Shared) (it : Item) :
  process_item X env isAtom lang rr rt (f, sh) it = Some (f', sh') ->
  (f' = f /\ sh' = sh) \/
  (debugMode env = false /\ exists pub key data,
     item_decision X (now env) isAtom f (cache sh) it = Proceed pub key /\
     publish_step env key pub data (f, sh) = (f', sh')).
Proof.
  unfold process_item.
  destruct (item_decision X (now env) isAtom f (cache sh) it) as [| |pub key] eqn:D.
  - intros H; injection H as <- <-. left; auto.
  - discriminate.
  - match goal with |- context [render ?a ?b ?c ?d ?e ?g] => destruct (render a b c d e g) as [msg|] end;
      [|discriminate].
    destruct (debugMode env) eqn:Dbg.
    + intros H; injection H as <- <-. left; auto.
    + intros H; injection H as H. right. split; [reflexivity|].
      exists pub, key, (form_data msg (Visibility f) (pick_lang lang (instLang env))).
      split; [reflexivity | exact H].
Qed.

Lemma same_setup_refl (f : Feed) : same_setup f f.
Proof. repeat split. Qed.

Lemma same_setup_trans (f g h : Feed) : same_setup f g -> same_setup g h -> same_setup f h.
Proof. unfold same_setup. intuition congruence. Qed.

Lemma cache_grows_refl (sh : Shared) : cache_grows sh sh.
Proof. intros keys H. exists keys. split; [exact H | apply incl_refl]. Qed.

Lemma cache_grows_trans (a b c : Shared) : cache_grows a b -> cache_grows b c -> cache_grows a c.
Proof.
  intros H1 H2 keys Ha. destruct (H1 _ Ha) as [k1 [Hb I1]]. destruct (H2 _ Hb) as [k2 [Hc I2]].
  exists k2. split; [exact Hc | eapply incl_tran; eassumption].
Qed.

Lemma high_water_refl (f : Feed) (sh : Shared) : high_water f f sh sh.
Proof. unfold high_water. lia. Qed.

Lemma high_water_trans (f g h : Feed) (a b c : Shared) :
  high_water f g a b -> high_water g h b c -> high_water f h a c.
Proof. unfold high_water. lia. Qed.

Lemma in_window_refl (n : Z) (f : Feed) : in_window n f f.
Proof. left; reflexivity. Qed.

Lemma in_window_trans (n : Z) (f g h : Feed) : in_window n f g -> in_window n g h -> in_window n f h.
Proof. unfold in_window. lia. Qed.

Lemma run_inv_refl (n : Z) (f : Feed) (sh : Shared) : run_inv n f f sh sh.
Proof.
  split; [apply same_setup_refl|]. split; [reflexivity|]. split; [apply cache_grows_refl|].
  split; [apply high_water_refl | apply in_window_refl].
Qed.

Lemma run_inv_trans (n : Z) (f g h : Feed) (a b c : Shared) :
  run_inv n f g a b -> run_inv n g h b c -> run_inv n f h a c.
Proof.
  intros [S1 [P1 [C1 [H1 W1]]]] [S2 [P2 [C2 [H2 W2]]]].
  split; [eapply same_setup_trans; eassumption|]. split; [congruence|].
  split; [eapply cache_grows_trans; eassumption|].
  split; [eapply high_water_trans; eassumption | eapply in_window_trans; eassumption].
Qed.

Lemma run_inv_same_feed (n : Z) (f : Feed) (sh sh' : Shared) :
  cache sh' = cache sh -> lastMonit sh' = lastMonit sh -> run_inv n f f sh sh'.
Proof.
  intros C L. split; [apply same_setup_refl|]. split; [reflexivity|].
  split; [intros keys Hk; exists keys; rewrite C; split; [exact Hk | apply incl_refl]|].
  split; [unfold high_water; lia | apply in_window_refl].
Qed.

Lemma publish_step_inv (n : Z) (env : Env) (key : string) (pub : Z)
    (data : list (string * string)) (f f' : Feed) (sh sh' : Shared) :
  LastRun f <= pub -> n - earlierSeconds <= pub <= n ->
  publish_step env key pub data (f, sh) = (f', sh') -> run_inv n f f' sh sh'.
Proof.
  intros Hle Hwin. unfold publish_step.
  destruct (post env (calls sh) key data) as [| |code].
  1, 2: intros H; injection H as <- <-; apply run_inv_same_feed; reflexivity.
  destruct (code =? StatusOK).
  - intros H; injection H as <- <-.
    split; [repeat split|]. split; [reflexivity|]. split.
    + intros keys Hk. cbn [cache]. rewrite Hk. exists (key :: keys).
      split; [reflexivity | intros x Hx; right; exact Hx].
    + unfold high_water, in_window, commit_feed. cbn [LastRun lastMonit].
      repeat match goal with |- context [if ?a <? ?b then _ else _] => destruct (Z.ltb_spec a b) end;
        lia.
  - intros H; injection H as <- <-. apply run_inv_same_feed; reflexivity.
Qed.

Lemma process_item_inv (X : Ext) (env : Env) (isAtom : bool) (lang : string)
    (rr : option (string -> string)) (rt : option (string -> list (list string)))
    (f f' : Feed) (sh sh' : Shared) (it : Item) :
  process_item X env isAtom lang rr rt (f, sh) it = Some (f', sh') -> run_inv (now env) f f' sh sh'.
Proof.
  intros H. destruct (process_item_publish _ _ _ _ _ _ _ _ _ _ _ H)
    as [[-> ->]|[_ [pub [key [data [D P]]]]]]; [apply run_inv_refl|].
  pose proof (item_decision_horizon _ _ _ _ _ _ _ _ D) as Hh.
  apply item_decision_proceed in D as [-> [Hle _]].
  eapply publish_step_inv; [exact Hle | | exact P]. unfold earlierSeconds in *. lia.
Qed.

Lemma run_items_inv (X : Ext) (env : Env) (isAtom : bool) (lang : string)
    (rr : option (string -> string)) (rt : option (string -> list (list string)))
    (items : list Item) (f f' : Feed) (sh sh' : Shared) :
  run_items X env isAtom lang rr rt (f, sh) items = Some (f', sh') -> run_inv (now env) f f' sh sh'.
Proof.
  revert f sh. induction items as [|it r IH]; intros f sh; cbn [run_items].
  - intros H; injection H as <- <-. apply run_inv_refl.
  - destruct (process_item X env isAtom lang rr rt (f, sh) it) as [[g shg]|] eqn:P;
      [|discriminate].
    intros H. eapply run_inv_trans; [eapply process_item_inv; exact P | exact (IH _ _ H)].
Qed.

Lemma getFeed_inv (X : Ext) (env : Env) (f f' : Feed) (sh sh' : Shared) :
  getFeed X env f sh = Some (f', sh') -> run_inv (now env) f f' sh sh'.
Proof.
  unfold getFeed. destruct (fetch env (FeedUrl f)) as [pf|].
  - apply run_items_inv.
  - intros H; injection H as <- <-. apply run_inv_refl.
Qed.

(** What one task of [Start] keeps. *)
Lemma tick_feed_inv (X : Ext) (env : Env) (f f' : Feed) (sh sh' : Shared) :
  tick_feed X env sh f = Some (f', sh') ->
  same_setup f f' /\ cache_grows sh sh' /\ high_water f f' sh sh' /\ in_window (now env) f f'.
Proof.
  unfold tick_feed.
  destruct (negb (is_empty (FeedUrl f)) && negb (is_empty (Token f))).
  - destruct (Interval (set_Progress f (wrap64 (Progress f + 1))) <=?
              Progress (set_Progress f (wrap64 (Progress f + 1)))).
    + intros H. apply getFeed_inv in H as [S [_ [C [HW W]]]].
      unfold same_setup, high_water, in_window in *. cbn [Name FeedUrl Token Interval LastRun
        lastMonit set_Progress cache] in *.
      split; [exact S|]. split; [exact C|]. split; [exact HW | exact W].
    + intros H; injection H as <- <-.
      split; [repeat split|]. split; [apply cache_grows_refl|].
      split; [unfold high_water; cbn [LastRun set_Progress]; lia | left; reflexivity].
  - intros H; injection H as <- <-.
    split; [apply same_setup_refl|]. split; [apply cache_grows_refl|].
    split; [apply high_water_refl | apply in_window_refl].
Qed.

Lemma Start_inv (X : Ext) (env : Env) (sh sh' : Shared) (fs fs' : list Feed) :
  Start X env sh fs = Some (fs', sh') ->
  Forall2 (fun f f' => same_setup f f' /\ in_window (now env) f f' /\
                       LastRun f' <= Z.max (LastRun f) (lastMonit sh')) fs fs' /\
  cache_grows sh sh' /\ lastMonit sh <= lastMonit sh'.
Proof.
  revert sh fs'. induction fs as [|f r IH]; intros sh fs'; cbn [Start].
  - intros H; injection H as <- <-. split; [constructor | split; [apply cache_grows_refl | lia]].
  - destruct (tick_feed X env sh f) as [[g shg]|] eqn:T; [|discriminate].
    destruct (Start X env shg r) as [[r' sh'']|] eqn:S; [|discriminate].
    intros H; injection H as <- <-.
    apply tick_feed_inv in T as [Ss [C [[H1 H2] W]]].
    destruct (IH _ _ S) as [F [C' L']].
    split; [constructor; [split; [exact Ss | split; [exact W | lia]] | exact F]|].
    split; [eapply cache_grows_trans; eassumption | lia].
Qed.

Lemma Forall2_same_setup_trans (fs gs hs : list Feed) :
  Forall2 same_setup fs gs -> Forall2 same_setup gs hs -> Forall2 same_setup fs hs.
Proof.
  intros H1. revert hs. induction H1 as [|f g fs gs Hfg _ IH]; intros hs H2;
    inversion H2; subst; constructor; [eapply same_setup_trans; eauto | auto].
Qed.

Lemma Cycles_inv (X : Ext) (envs : list Env) (sh sh' : Shared) (fs fs' : list Feed) :
  Cycles X envs sh fs = Some (fs', sh') -> Forall2 same_setup fs fs' /\ cache_grows sh sh'.
Proof.
  revert sh fs. induction envs as [|env r IH]; intros sh fs; cbn [Cycles].
  - intros H; injection H as <- <-. split; [|apply cache_grows_refl].
    induction fs; constructor; [apply same_setup_refl | assumption].
  - destruct (Start X env sh fs) as [[gs shg]|] eqn:S; [|discriminate].
    intros H. destruct (IH _ _ H) as [F2 C2]. apply Start_inv in S as [F1 [C1 _]].
    split; [|eapply cache_grows_trans; eassumption].
    eapply Forall2_same_setup_trans; [|exact F2].
    eapply Forall2_impl; [|exact F1]. intros a b [Hs _]; exact Hs.
Qed.

Lemma idempotency_key_name (X : Ext) (f f' : Feed) (it : Item) :
  Name f' = Name f -> idempotency_key X f' it = idempotency_key X f it.
Proof. intros E. unfold idempotency_key. rewrite E. reflexivity. Qed.

Lemma getFeed_debug (X : Ext) (env : Env) (f f' : Feed) (sh sh' : Shared) :
  debugMode env = true -> getFeed X env f sh = Some (f', sh') -> f' = f /\ sh' = sh.
Proof.
  intros Dbg. unfold getFeed. destruct (fetch env (FeedUrl f)) as [pf|];
    [|intros H; injection H as <- <-; auto].
  generalize (loop_order (String.eqb (FeedType pf) "atom") (Items pf)).
  intros items. revert f sh. induction items as [|it r IH]; intros f sh; cbn [run_items].
  - intros H; injection H as <- <-. auto.
  - match goal with |- context [process_item ?a ?b ?c ?d ?e ?g (f, sh) it] =>
      destruct (process_item a b c d e g (f, sh) it) as [[g' shg]|] eqn:P end; [|discriminate].
    destruct (process_item_publish _ _ _ _ _ _ _ _ _ _ _ P) as [[-> ->]|[D _]];
      [exact (IH _ _) | congruence].
Qed.

Lemma tick_feed_debug (X : Ext) (env : Env) (f f' : Feed) (sh sh' : Shared) :
  debugMode env = true -> tick_feed X env sh f = Some (f', sh') ->
  f' = set_Progress f (Progress f') /\ cache sh' = cache sh /\
  lastMonit sh' = lastMonit sh /\ calls sh' = calls sh.
Proof.
  intros Dbg. unfold tick_feed.
  destruct (negb (is_empty (FeedUrl f)) && negb (is_empty (Token f))).
  - destruct (Interval (set_Progress f (wrap64 (Progress f + 1))) <=?
              Progress (set_Progress f (wrap64 (Progress f + 1)))).
    + intros H. apply getFeed_debug in H as [-> ->]; [|exact Dbg]. repeat split.
    + intros H; injection H as <- <-. repeat split.
  - intros H; injection H as <- <-. destruct f. repeat split.
Qed.

Lemma tick_feed_disabled (X : Ext) (env : Env) (f : Feed) (sh : Shared) :
  is_empty (FeedUrl f) || is_empty (Token f) = true -> tick_feed X env sh f = Some (f, sh).
Proof.
  intros H. unfold tick_feed.
  destruct (is_empty (FeedUrl f)), (is_empty (Token f)); try discriminate; reflexivity.
Qed.

Lemma tick_feed_progress (X : Ext) (env : Env) (f f' : Feed) (sh sh' : Shared) :
  is_empty (FeedUrl f) = false -> is_empty (Token f) = false ->
  0 < Interval f < 2 ^ 63 -> 0 <= Progress f < Interval f ->
  tick_feed X env sh f = Some (f', sh') ->
  same_setup f f' /\ Progress f' = (Progress f + 1) mod Interval f.
Proof.
  intros U T I P. unfold tick_feed. rewrite U, T. cbn [negb andb].
  rewrite (wrap64_id (Progress f + 1)) by lia. cbn [Interval Progress set_Progress].
  destruct (Z.leb_spec (Interval f) (Progress f + 1)) as [Hdue|Hnot].
  - intros H. apply getFeed_inv in H as [S [Pr _]].
    unfold same_setup in *. cbn [Name FeedUrl Token Interval Progress] in *.
    split; [exact S|]. rewrite Pr.
    replace (Progress f + 1) with (Interval f) by lia. rewrite Z.mod_same by lia. reflexivity.
  - intros H; injection H as <- <-. split; [repeat split|]. cbn [Progress set_Progress].
    rewrite Z.mod_small; lia.
Qed.

Lemma category_part_bytes (c a : ascii) (s p : string) :
  In p (split_on c s) -> mem_char a p = true -> mem_char a s = true /\ a <> c.
Proof.
  revert p. induction s as [|b r IH]; intros p Hp Ha; cbn [split_on] in Hp.
  - destruct Hp as [<-|[]]. discriminate.
  - cbn [mem_char]. destruct (Ascii.eqb_spec b c) as [->|Hbc].
    + destruct Hp as [<-|Hp]; [discriminate|]. destruct (IH p Hp Ha) as [H1 H2].
      rewrite H1, orb_true_r. auto.
    + destruct (split_on c r) as [|q qs] eqn:E.
      * destruct Hp as [<-|[]]. cbn [mem_char] in Ha. rewrite orb_false_r in Ha.
        apply Ascii.eqb_eq in Ha as <-. rewrite Ascii.eqb_refl. auto.
      * destruct Hp as [<-|Hp].
        -- cbn [mem_char] in Ha. destruct (Ascii.eqb_spec b a) as [<-|Hba].
           ++ split; [reflexivity | exact Hbc].
           ++ destruct (IH q (or_introl eq_refl) Ha) as [H1 H2]. rewrite H1, orb_true_r. auto.
        -- destruct (IH p (or_intror Hp) Ha) as [H1 H2]. rewrite H1, orb_true_r. auto.
Qed.

Lemma remove_spaces_bytes (a : ascii) (s : string) : mem_char a (remove_spaces s) = true -> a <> sp.
Proof.
  induction s as [|b r IH]; cbn [remove_spaces]; [discriminate|].
  destruct (Ascii.eqb_spec b sp) as [->|Hb]; [exact IH|].
  cbn [mem_char]. destruct (Ascii.eqb_spec b a) as [<-|]; [intros _; exact Hb | exact IH].
Qed.

Lemma contains_any_false (s chars : string) :
  (forall a, mem_char a s = true -> mem_char a chars = false) -> contains_any s chars = false.
Proof.
  induction s as [|b r IH]; intros H; [reflexivity|]. cbn [contains_any].
  rewrite (H b) by (cbn [mem_char]; rewrite Ascii.eqb_refl; reflexivity).
  apply IH. intros a Ha. apply H. cbn [mem_char]. rewrite Ha, orb_true_r. reflexivity.
Qed.

Lemma contains_any_mem (s chars : string) (a : ascii) :
  contains_any s chars = false -> mem_char a s = true -> mem_char a chars = false.
Proof.
  induction s as [|b r IH]; intros H Ha; [discriminate|]. cbn [contains_any mem_char] in *.
  apply orb_false_iff in H as [H1 H2].
  destruct (Ascii.eqb_spec b a) as [<-|]; [exact H1 | exact (IH H2 Ha)].
Qed.

Lemma Forall2_compose {A B C : Type} (R1 : A -> B -> Prop) (R2 : B -> C -> Prop)
    (l1 : list A) (l2 : list B) (l3 : list C) :
  Forall2 R1 l1 l2 -> Forall2 R2 l2 l3 -> Forall2 (fun a c => exists b, R1 a b /\ R2 b c) l1 l3.
Proof.
  intros H1. revert l3. induction H1 as [|a b l1 l2 Hab _ IH]; intros l3 H2;
    inversion H2; subst; constructor; eauto.
Qed.

Lemma Start_ticks (X : Ext) (env : Env) (sh sh' : Shared) (fs fs' : list Feed) :
  Start X env sh fs = Some (fs', sh') ->
  Forall2 (fun f f' => exists s0 s1, tick_feed X env s0 f = Some (f', s1)) fs fs'.
Proof.
  revert sh sh' fs'. induction fs as [|f r IH]; intros sh sh' fs'; cbn [Start].
  - intros H; injection H as <- _. constructor.
  - destruct (tick_feed X env sh f) as [[g shg]|] eqn:Tk; [|discriminate].
    destruct (Start X env shg r) as [[r' sh2]|] eqn:S; [|discriminate].
    intros H; injection H as <- _. constructor; [eauto | exact (IH _ _ _ S)].
Qed.

Lemma tick_feed_fetch (X : Ext) (env : Env) (sh : Shared) (f : Feed) :
  progress_in_range f ->
  tick_feed X env sh f =
  if Progress f + 1 =? Interval f
  then getFeed X env (set_Progress f 0) (mkShared (cache sh) (lastMonit sh) (now env) (calls sh))
  else Some (set_Progress f (Progress f + 1), sh).
Proof.
  intros [U [T [I P]]]. unfold tick_feed. rewrite U, T. cbn [negb andb].
  rewrite (wrap64_id (Progress f + 1)) by lia. cbn [Interval Progress set_Progress].
  destruct (Z.leb_spec (Interval f) (Progress f + 1));
    destruct (Z.eqb_spec (Progress f + 1) (Interval f)); try lia; reflexivity.
Qed.

(** ** Properties *)

(** [FeedIndex] returns the position of the first feed whose name starts
    with [name], or -1 when there is none. *)
Theorem FeedIndex_first_match (fs : list Feed) (name : string) :
  (FeedIndex fs name = -1 /\ Forall (fun f => has_prefix name (Name f) = false) fs) \/
  (exists pre f post, fs = app pre (f :: post) /\
     FeedIndex fs name = Z.of_nat (length pre) /\
     has_prefix name (Name f) = true /\
     Forall (fun g => has_prefix name (Name g) = false) pre).
Proof.
  unfold FeedIndex. destruct (FeedIndex_from_spec 0 fs name) as [H|[pre [f [post [H1 [H2 H3]]]]]];
    [left; exact H | right; exists pre, f, post; split; [exact H1 | split; [lia | exact H3]]].
Qed.

(** [getInstanceLimit] always yields a positive limit: the default 500,
    or the instance's [max_characters] when the URL is set and valid, the
    answer is [200 OK] and the value is positive. *)
Theorem getInstanceLimit_positive (instURL : string) (urlValid : bool) (reply : InstanceReply) :
  0 < getInstanceLimit instURL urlValid reply /\
  (getInstanceLimit instURL urlValid reply = DefaultCharacterLimit \/
   (is_empty instURL = false /\ urlValid = true /\
    reply = Reply StatusOK (getInstanceLimit instURL urlValid reply))).
Proof.
  unfold getInstanceLimit, DefaultCharacterLimit.
  destruct (is_empty instURL); cbv beta iota; [split; [lia | left; reflexivity]|].
  destruct urlValid; cbn [negb]; cbv beta iota; [|split; [lia | left; reflexivity]].
  destruct reply as [|status i]; [split; [lia | left; reflexivity]|].
  destruct (Z.eqb_spec status StatusOK) as [->|]; cbv beta iota; [|split; [lia | left; reflexivity]].
  destruct (Z.ltb_spec 0 i); cbv beta iota;
    [split; [lia | right; auto] | split; [lia | left; reflexivity]].
Qed.

(** [NewFeedsMonitor] only replaces a configured limit of 0: a negative
    limit is kept, and with it rendering any item panics (the slice bound
    [limit - l - 11] is negative). *)
Theorem negative_limit_render_panics (limit : Z) (instURL : string) (urlValid : bool)
    (reply : InstanceReply) (reReplace : option (string -> string))
    (title hashtags link d : string) :
  limit < 0 ->
  instance_limit limit instURL urlValid reply = limit /\
  render limit reReplace title hashtags link d = None.
Proof.
  intros Hl. split.
  - unfold instance_limit. destruct (Z.eqb_spec limit 0); [lia | reflexivity].
  - pose proof (len_nonneg title). pose proof (len_nonneg hashtags).
    pose proof (len_nonneg link). pose proof (len_nonneg d).
    unfold render. cbv zeta.
    destruct (Z.ltb_spec limit (len title + len hashtags + len link + len d)); [|lia].
    rewrite truncate_short_panics by lia. reflexivity.
Qed.

(** The initial [lastMonit]: the persisted [Monit] (as saved by
    [SaveFeedsData]) when it is set and at most an hour old; otherwise a
    minute-aligned time 55 to 56 minutes before [now]. *)
Theorem init_lastMonit_window (now monit : Z) :
  (monit <> 0 /\ now - monit <= 3600 /\ init_lastMonit now monit = monit) \/
  ((monit = 0 \/ 3600 < now - monit) /\
   init_lastMonit now monit mod 60 = 0 /\ now - 3360 < init_lastMonit now monit <= now - 3300).
Proof.
  unfold init_lastMonit. destruct (minute_floor_window now) as [M W].
  destruct (Z.eqb_spec monit 0) as [E|E]; cbn [orb]; cbv beta iota.
  - right. split; [left; exact E | split; [exact M | exact W]].
  - destruct (Z.ltb_spec 3600 (now - monit)); cbv beta iota.
    + right. split; [right; lia | split; [exact M | exact W]].
    + left. split; [exact E | split; [lia | reflexivity]].
Qed.

(** After [setDefaultValues] every feed has one of the three visibilities,
    a non-zero interval, and a name without [\n] or [\r] bytes. *)
Theorem setDefaultValues_normalised (X : Ext) (lastMonit : Z) (fs : list Feed) :
  Forall (fun f => is_visibility (Visibility f) = true /\ Interval f <> 0 /\
                   contains_any (Name f) crlf = false) (setDefaultValues X lastMonit fs).
Proof.
  unfold setDefaultValues. apply Forall_forall. intros f' Hin.
  apply in_map_iff in Hin as [f [<- _]].
  unfold setDefault_feed. cbv zeta. cbn [Visibility Interval Name].
  split; [destruct (is_visibility (Visibility f)) eqn:E; [exact E | reflexivity]|].
  split; [|apply feedNameReplacer_no_crlf].
  destruct (Z.eqb_spec (Interval f) 0); cbv beta iota; [unfold DefaultCheckInterval; lia | assumption].
Qed.

(** The per-request timeout [60/(n+1)] seconds: the [n+1] timeouts fit in
    one minute, and the timeout is 0 exactly when there are 60 feeds or
    more. *)
Theorem ctxTimeout_budget (nFeeds : Z) :
  0 <= nFeeds ->
  0 <= ctxTimeoutSeconds nFeeds /\ (nFeeds + 1) * ctxTimeoutSeconds nFeeds <= 60 /\
  (ctxTimeoutSeconds nFeeds = 0 <-> 60 <= nFeeds).
Proof.
  intros Hn. unfold ctxTimeoutSeconds. rewrite Z.quot_div_nonneg by lia.
  split; [apply Z.div_pos; lia|]. split; [apply Z.mul_div_le; lia|].
  split; intros H.
  - destruct (Z.lt_ge_cases nFeeds 60) as [Hl|Hg]; [|exact Hg].
    pose proof (Z.div_str_pos 60 (nFeeds + 1) ltac:(lia)). lia.
  - apply Z.div_small. lia.
Qed.

(** The request form always carries [status] and [visibility]; it carries
    a [language] field exactly when the feed's language has at least two
    bytes (cut to its first two) or the instance language has exactly
    two. *)
Theorem request_language (msg vis feedLang instLang : string) :
  In ("status", msg) (form_data msg vis (pick_lang feedLang instLang)) /\
  In ("visibility", vis) (form_data msg vis (pick_lang feedLang instLang)) /\
  ((exists v, In ("language", v) (form_data msg vis (pick_lang feedLang instLang))) <->
   (2 <= len feedLang \/ len instLang = 2)).
Proof.
  assert (HL : len (pick_lang feedLang instLang) = 2 <-> 2 <= len feedLang \/ len instLang = 2).
  { unfold pick_lang.
    destruct (Z.eqb_spec (len feedLang) 2) as [E|E]; cbv beta iota;
      [split; [intros _; left; lia | intros _; exact E]|].
    destruct (Z.ltb_spec 2 (len feedLang)) as [G|G]; cbv beta iota.
    - assert (len (substring 0 2 feedLang) = 2).
      { unfold len in *. rewrite length_prefix by lia. reflexivity. }
      split; [intros _; left; lia | intros _; assumption].
    - split; [intros H; right; exact H | intros [H|H]; [lia | exact H]]. }
  unfold form_data. destruct (Z.eqb_spec (len (pick_lang feedLang instLang)) 2) as [E|E];
    cbv beta iota; simpl.
  - split; [left; reflexivity|]. split; [right; left; reflexivity|].
    split; [intros _; apply HL; exact E|].
    intros _. exists (pick_lang feedLang instLang). right; right; left; reflexivity.
  - split; [left; reflexivity|]. split; [right; left; reflexivity|].
    split; [intros [v [H|[H|[]]]]; discriminate | intros H; apply HL in H; contradiction].
Qed.

(** Every hashtag [makeHashtags] takes from a category is free of spaces,
    colons and the bytes [-], [\], [/] and [.]. *)
Theorem category_tags_clean (tag : string) :
  Forall (fun t => contains_any t " -\/.:" = false) (category_tags tag).
Proof.
  unfold category_tags. cbv zeta. apply Forall_forall. intros t Ht.
  apply filter_In in Ht as [Hs Hf]. apply negb_true_iff in Hf.
  apply contains_any_false. intros a Ha.
  destruct (category_part_bytes _ _ _ _ Hs Ha) as [Hr Hc].
  apply remove_spaces_bytes in Hr. unfold sp in Hr.
  pose proof (contains_any_mem _ _ _ Hf Ha) as Hm. revert Hm. cbn [mem_char].
  destruct (Ascii.eqb_spec " "%char a) as [<-|_]; [contradiction|].
  destruct (Ascii.eqb_spec ":"%char a) as [<-|_]; [contradiction|].
  destruct (Ascii.eqb "-"%char a), (Ascii.eqb "\"%char a), (Ascii.eqb "/"%char a),
    (Ascii.eqb "."%char a); cbn [orb]; auto.
Qed.

(** Without a replacement pattern, [render] invents no text: the post is
    the title, a blank line, the description (whole, or a prefix of it
    followed by " [...]", or nothing when it is empty), the hashtags and
    the link. *)
Theorem render_keeps_content (limit : Z) (title hashtags link d msg : string) :
  render limit None title hashtags link d = Some msg ->
  exists body,
    msg = title ++ nlnl ++ body ++ (if is_empty hashtags then EmptyString else hashtags ++ nlnl) ++ link /\
    ((d = EmptyString /\ body = EmptyString) \/ body = d ++ nlnl \/
     (exists p, prefix_of p d /\ body = p ++ ellipsis ++ nlnl)).
Proof.
  intros H. destruct (render_plain_cases _ _ _ _ _ _ H) as [[_ [p [Hp [_ ->]]]]|[_ ->]].
  - exists ((p ++ ellipsis) ++ nlnl). split; [reflexivity|].
    right; right. exists p. split; [exact Hp | apply append_assoc_s].
  - destruct (is_empty d) eqn:E.
    + exists EmptyString. split; [reflexivity|]. left.
      split; [apply String.eqb_eq; exact E | reflexivity].
    + exists (d ++ nlnl). split; [reflexivity|]. right; left; reflexivity.
Qed.

(** The length check of [getFeed] does not count the blank lines it adds:
    without a replacement pattern a rendered post can exceed the limit,
    by at most 6 bytes. *)
Theorem render_length_bound (limit : Z) (title hashtags link d msg : string) :
  render limit None title hashtags link d = Some msg -> len msg <= limit + 6.
Proof.
  intros H. pose proof (len_nonneg hashtags). pose proof (len_nonneg d).
  destruct (render_plain_cases _ _ _ _ _ _ H) as [[Hlt [p [_ [Hp ->]]]]|[Hge ->]];
    rewrite !len_append, ?len_nlnl, ?len_nl, ?len_ellipsis, ?len_block, ?len_append,
      ?len_nlnl, ?len_nl, ?len_ellipsis;
    destruct (is_empty hashtags) eqn:Eh; [apply is_empty_len in Eh| | apply is_empty_len in Eh|];
    try (destruct (is_empty d) eqn:Ed; [apply is_empty_len in Ed|]); cbv beta iota; lia.
Qed.

(** When the description is truncated, the post is at most [limit + 1]
    bytes, and at most [limit - 1] without hashtags. *)
Theorem render_truncated_bound (limit : Z) (title hashtags link d msg : string) :
  limit < len title + len hashtags + len link + len d ->
  render limit None title hashtags link d = Some msg ->
  len msg <= limit + 1 /\ (is_empty hashtags = true -> len msg <= limit - 1).
Proof.
  intros Hlt H. pose proof (len_nonneg hashtags).
  destruct (render_plain_cases _ _ _ _ _ _ H) as [[_ [p [_ [Hp ->]]]]|[Hge _]]; [|lia].
  rewrite !len_append, ?len_nlnl, ?len_nl, ?len_ellipsis, ?len_block, ?len_append,
    ?len_nlnl, ?len_nl, ?len_ellipsis.
  destruct (is_empty hashtags) eqn:Eh; [apply is_empty_len in Eh|]; cbv beta iota;
    split; intros; try discriminate; lia.
Qed.

(** A cycle never moves a watermark into the future, nor below the
    12-hour horizon: each [LastRun] stays, or moves up to a time in
    [[now - 12h, now]]. *)
Theorem Start_watermark_window (X : Ext) (env : Env) (sh sh' : Shared) (fs fs' : list Feed) :
  Start X env sh fs = Some (fs', sh') -> Forall2 (in_window (now env)) fs fs'.
Proof.
  intros H. apply Start_inv in H as [F _].
  eapply Forall2_impl; [|exact F]. intros a b [_ [W _]]; exact W.
Qed.

(** In debug mode a cycle sends no request and changes neither the cache,
    [lastMonit], nor any feed except its [Progress]. *)
Theorem debug_mode_sends_nothing (X : Ext) (env : Env) (sh sh' : Shared) (fs fs' : list Feed) :
  debugMode env = true -> Start X env sh fs = Some (fs', sh') ->
  cache sh' = cache sh /\ lastMonit sh' = lastMonit sh /\ calls sh' = calls sh /\
  Forall2 (fun f f' => f' = set_Progress f (Progress f')) fs fs'.
Proof.
  intros Dbg. revert sh fs'. induction fs as [|f r IH]; intros sh fs'; cbn [Start].
  - intros H; injection H as <- <-.
    split; [reflexivity | split; [reflexivity | split; [reflexivity | constructor]]].
  - destruct (tick_feed X env sh f) as [[g shg]|] eqn:T; [|discriminate].
    destruct (Start X env shg r) as [[r' sh'']|] eqn:S; [|discriminate].
    intros H; injection H as <- <-.
    apply tick_feed_debug in T as [Ef [C1 [L1 K1]]]; [|exact Dbg].
    destruct (IH _ _ S) as [C2 [L2 [K2 F]]].
    split; [congruence | split; [congruence | split; [congruence | constructor; assumption]]].
Qed.

(** A feed without a URL or a token is never touched by a cycle. *)
Theorem Start_disabled_untouched (X : Ext) (env : Env) (sh sh' : Shared) (fs fs' : list Feed) :
  Start X env sh fs = Some (fs', sh') ->
  Forall2 (fun f f' => is_empty (FeedUrl f) || is_empty (Token f) = true -> f' = f) fs fs'.
Proof.
  revert sh fs'. induction fs as [|f r IH]; intros sh fs'; cbn [Start].
  - intros H; injection H as <- <-. constructor.
  - destruct (tick_feed X env sh f) as [[g shg]|] eqn:T; [|discriminate].
    destruct (Start X env shg r) as [[r' sh'']|] eqn:S; [|discriminate].
    intros H; injection H as <- <-. constructor; [|exact (IH _ _ S)].
    intros Hd. rewrite tick_feed_disabled in T by exact Hd. injection T as Eg _. symmetry; exact Eg.
Qed.

(** In a monitor with any number of feeds, for every enabled feed with
    [0 <= Progress < Interval], [Progress] counts the ticks modulo
    [Interval]: after [n] ticks it is [(Progress + n) mod Interval].  On
    a tick such a feed is fetched ([getFeed] runs, with [Progress] reset
    to 0) exactly when [Progress + 1 = Interval], that is on the ticks
    where the count wraps to 0; on the other ticks only [Progress] is
    incremented. *)
Theorem progress_counts_ticks (X : Ext) (envs : list Env) (sh sh' : Shared) (fs fs' : list Feed) :
  Cycles X envs sh fs = Some (fs', sh') ->
  Forall2 (fun f f' => progress_in_range f ->
             Progress f' = (Progress f + Z.of_nat (length envs)) mod Interval f) fs fs' /\
  (forall (env : Env) (sh0 : Shared) (f : Feed), progress_in_range f ->
     tick_feed X env sh0 f =
     if Progress f + 1 =? Interval f
     then getFeed X env (set_Progress f 0)
            (mkShared (cache sh0) (lastMonit sh0) (now env) (calls sh0))
     else Some (set_Progress f (Progress f + 1), sh0)).
Proof.
  intros H. split; [|intros env sh0 f R; exact (tick_feed_fetch X env sh0 f R)].
  revert sh fs H. induction envs as [|env r IH]; intros sh fs; cbn [Cycles].
  - intros H; injection H as <- _. induction fs as [|f fs IHf]; constructor; [|exact IHf].
    intros [_ [_ [I P]]]. cbn [List.length]. rewrite Z.add_0_r, Z.mod_small; lia.
  - destruct (Start X env sh fs) as [[fs1 sh1]|] eqn:S; [|discriminate].
    intros H. pose proof (Forall2_compose _ _ _ _ _ (Start_ticks _ _ _ _ _ _ S) (IH _ _ H)) as C.
    eapply Forall2_impl; [|exact C]. cbv beta.
    intros f f' [g [[s0 [s1 Tk]] Hg]] R. destruct R as [U [T [I P]]].
    apply tick_feed_progress in Tk as [[Sn [Su [St Si]]] Pg]; try assumption.
    pose proof (Z.mod_pos_bound (Progress f + 1) (Interval f) ltac:(lia)) as B.
    rewrite Hg by (unfold progress_in_range; rewrite Su, St, Si, Pg; repeat split; first [assumption | lia]).
    rewrite Si, Pg, Z.add_mod_idemp_l by lia. f_equal. cbn [List.length]. lia.
Qed.

(** A feed whose interval is at most 1 (a negative interval is kept by
    [setDefaultValues]) is fetched on every tick. *)
Theorem small_interval_fetched_every_tick (X : Ext) (env : Env) (sh : Shared) (f : Feed) :
  is_empty (FeedUrl f) = false -> is_empty (Token f) = false ->
  Interval f <= 1 -> 0 <= Progress f < 2 ^ 63 - 1 ->
  tick_feed X env sh f =
  getFeed X env (set_Progress f 0) (mkShared (cache sh) (lastMonit sh) (now env) (calls sh)).
Proof.
  intros U T I P. unfold tick_feed. rewrite U, T. cbn [negb andb].
  rewrite (wrap64_id (Progress f + 1)) by lia. cbn [Interval Progress set_Progress].
  destruct (Z.leb_spec (Interval f) (Progress f + 1)); [reflexivity | lia].
Qed.

(** The cycles never rewrite a feed's name, URL, token or interval. *)
Theorem Cycles_keep_setup (X : Ext) (envs : list Env) (sh sh' : Shared) (fs fs' : list Feed) :
  Cycles X envs sh fs = Some (fs', sh') ->
  Forall2 (fun f f' => Name f' = Name f /\ FeedUrl f' = FeedUrl f /\ Token f' = Token f /\
                       Interval f' = Interval f) fs fs'.
Proof. intros H. exact (proj1 (Cycles_inv X envs sh sh' fs fs' H)). Qed.

(** * Witnesses of the properties *)

Lemma negative_limit_render_panics_witness :
  -1 < 0 /\ instance_limit (-1) EmptyString false NoReply = -1 /\
  render (-1) None "T" EmptyString "L" "x" = None.
Proof.
  split; [lia|]. apply negative_limit_render_panics. lia.
Defined.

Lemma ctxTimeout_budget_witness :
  0 <= 60 /\ 0 <= ctxTimeoutSeconds 60 /\ (60 + 1) * ctxTimeoutSeconds 60 <= 60 /\
  (ctxTimeoutSeconds 60 = 0 <-> 60 <= 60).
Proof.
  split; [lia|]. apply ctxTimeout_budget. lia.
Defined.

Lemma render_keeps_content_witness :
  let m := match render 30 None "T" "#a" "L" x40 with Some m => m | None => EmptyString end in
  render 30 None "T" "#a" "L" x40 = Some m /\
  exists body,
    m = "T" ++ nlnl ++ body ++ (if is_empty "#a" then EmptyString else "#a" ++ nlnl) ++ "L" /\
    ((x40 = EmptyString /\ body = EmptyString) \/ body = x40 ++ nlnl \/
     (exists p, prefix_of p x40 /\ body = p ++ ellipsis ++ nlnl)).
Proof.
  intros m. assert (H : render 30 None "T" "#a" "L" x40 = Some m) by (vm_compute; reflexivity).
  split; [exact H|]. exact (render_keeps_content 30 "T" "#a" "L" x40 m H).
Defined.

Lemma render_length_bound_witness :
  let m := match render 6 None "T" "#a" "L" "xx" with Some m => m | None => EmptyString end in
  render 6 None "T" "#a" "L" "xx" = Some m /\ len m = 6 + 6 /\ len m <= 6 + 6.
Proof.
  intros m. assert (H : render 6 None "T" "#a" "L" "xx" = Some m) by (vm_compute; reflexivity).
  split; [exact H|]. split; [vm_compute; reflexivity|].
  exact (render_length_bound 6 "T" "#a" "L" "xx" m H).
Defined.

Lemma render_truncated_bound_witness :
  let m := match render 30 None "T" "#a" "L" x40 with Some m => m | None => EmptyString end in
  (30 < len "T" + len "#a" + len "L" + len x40 /\ render 30 None "T" "#a" "L" x40 = Some m) /\
  len m = 30 + 1 /\ (len m <= 30 + 1 /\ (is_empty "#a" = true -> len m <= 30 - 1)).
Proof.
  intros m. assert (H : render 30 None "T" "#a" "L" x40 = Some m) by (vm_compute; reflexivity).
  assert (Hlt : 30 < len "T" + len "#a" + len "L" + len x40) by (apply Z.ltb_lt; vm_compute; reflexivity).
  split; [split; assumption|]. split; [vm_compute; reflexivity|].
  exact (render_truncated_bound 30 "T" "#a" "L" x40 m Hlt H).
Defined.

Lemma Start_watermark_window_witness :
  let pf := mkParsedFeed "rss" "en" [item0 "a" 99999] in
  match Start ext0 (env0 100000 (Some pf) StatusOK) (shared0 None) [feed0 "ab" 1 99996] with
  | Some (fs', _) => Forall2 (in_window 100000) [feed0 "ab" 1 99996] fs'
  | None => False
  end.
Proof.
  intros pf.
  destruct (Start ext0 (env0 100000 (Some pf) StatusOK) (shared0 None) [feed0 "ab" 1 99996])
    as [[fs' sh']|] eqn:E; [|vm_compute in E; discriminate].
  exact (Start_watermark_window _ _ _ _ _ _ E).
Defined.

Lemma debug_mode_sends_nothing_witness :
  let pf := mkParsedFeed "rss" "en" [item0 "a" 99999] in
  let env := mkEnv 100000 100000 500 "en" true (fun _ => Some pf) (fun _ _ _ => Status StatusOK) in
  debugMode env = true /\
  match Start ext0 env (shared0 (Some [])) [feed0 "ab" 1 99996] with
  | Some (fs', sh') =>
      cache sh' = Some [] /\ lastMonit sh' = 0 /\ calls sh' = 0%nat /\
      Forall2 (fun f f' => f' = set_Progress f (Progress f')) [feed0 "ab" 1 99996] fs'
  | None => False
  end.
Proof.
  intros pf env. split; [reflexivity|].
  destruct (Start ext0 env (shared0 (Some [])) [feed0 "ab" 1 99996]) as [[fs' sh']|] eqn:E;
    [|vm_compute in E; discriminate].
  exact (debug_mode_sends_nothing ext0 env _ _ _ _ eq_refl E).
Defined.

Lemma Start_disabled_untouched_witness :
  let off := mkFeed "ab" "https://example.com/feed.xml" EmptyString EmptyString "public"
               EmptyString EmptyString EmptyString 1 99996 0 0 0 in
  let pf := mkParsedFeed "rss" "en" [item0 "a" 99999] in
  match Start ext0 (env0 100000 (Some pf) StatusOK) (shared0 None) [off; feed0 "cd" 1 99996] with
  | Some (fs', _) =>
      Forall2 (fun f f' => is_empty (FeedUrl f) || is_empty (Token f) = true -> f' = f)
        [off; feed0 "cd" 1 99996] fs'
  | None => False
  end.
Proof.
  intros off pf.
  destruct (Start ext0 (env0 100000 (Some pf) StatusOK) (shared0 None) [off; feed0 "cd" 1 99996])
    as [[fs' sh']|] eqn:E; [|vm_compute in E; discriminate].
  exact (Start_disabled_untouched _ _ _ _ _ _ E).
Defined.

Lemma progress_counts_ticks_witness :
  let envs := [env0 100000 None StatusOK; env0 100060 None StatusOK; env0 100120 None StatusOK;
               env0 100180 None StatusOK; env0 100240 None StatusOK] in
  let fs := [feed0 "ab" 3 0; feed0 "cd" 2 0] in
  match Cycles ext0 envs (shared0 None) fs with
  | Some (fs', _) =>
      map Progress fs' = [2; 1] /\
      Forall2 (fun f f' => progress_in_range f ->
                 Progress f' = (Progress f + 5) mod Interval f) fs fs'
  | None => False
  end.
Proof.
  intros envs fs.
  destruct (Cycles ext0 envs (shared0 None) fs) as [[fs' sh']|] eqn:E;
    [|vm_compute in E; discriminate].
  split; [vm_compute in E; injection E as <- _; reflexivity|].
  exact (proj1 (progress_counts_ticks ext0 envs (shared0 None) sh' fs fs' E)).
Defined.

Lemma small_interval_fetched_every_tick_witness :
  tick_feed ext0 (env0 100000 None StatusOK) (shared0 None) (feed0 "ab" (-5) 0) =
  getFeed ext0 (env0 100000 None StatusOK) (set_Progress (feed0 "ab" (-5) 0) 0)
    (mkShared None 0 100000 0).
Proof.
  exact (small_interval_fetched_every_tick ext0 (env0 100000 None StatusOK) (shared0 None)
           (feed0 "ab" (-5) 0) eq_refl eq_refl ltac:(simpl; lia) ltac:(simpl; lia)).
Defined.

Lemma Cycles_keep_setup_witness :
  let pf := mkParsedFeed "rss" "en" [item0 "a" 99999] in
  let envs := [env0 100000 (Some pf) StatusOK; env0 100060 (Some pf) StatusOK] in
  match Cycles ext0 envs (shared0 None) [feed0 "ab" 1 0] with
  | Some (fs', _) =>
      Forall2 (fun f f' => Name f' = Name f /\ FeedUrl f' = FeedUrl f /\ Token f' = Token f /\
                           Interval f' = Interval f) [feed0 "ab" 1 0] fs'
  | None => False
  end.
Proof.
  intros pf envs.
  destruct (Cycles ext0 envs (shared0 None) [feed0 "ab" 1 0]) as [[fs' sh']|] eqn:E;
    [|vm_compute in E; discriminate].
  exact (Cycles_keep_setup _ _ _ _ _ _ E).
Defined.
